(** * Verification of the stream drivers and broker wrappers of benthos

    A shallow embedding of the Go sources: the SQS writer, the Kinesis
    coordinated consumer, the NATS outputs, the dynamic input/output
    brokers, and (from the design document and their tests) the drop_on
    output and the dedupe processor.

    Conventions.  Go code that talks to the outside world (the AWS SDK,
    NATS, timers, channels, contexts) is embedded as a function of an
    explicit environment value that records what the outside world
    answered; the functions are total and executable, so every behaviour
    can be evaluated on a concrete environment.  A Go [error] that may be
    nil is [option error]; a Go pointer that may be nil is an [option]. *)

From stdpp Require Import gmap strings list pretty.
From Stdlib Require Import ZArith Lia.

Open Scope string_scope.
Open Scope list_scope.

(** ** Errors *)

Module Errors.

(** The errors the embedded code creates, returns or tests for. *)
Inductive error : Type :=
| ErrNotConnected                         (* service.ErrNotConnected *)
| ErrTimeout                              (* component.ErrTimeout *)
| ContextCanceled                         (* context.Canceled *)
| ContextDeadlineExceeded                 (* context.DeadlineExceeded *)
| ErrLeaseNotAcquired                     (* aws.ErrLeaseNotAcquired *)
| AwsError (code message : string) (orig : option string)
                                          (* awserr.New(code, message, orig) *)
| ErrRecordFailed (code message : string) (* "record failed with code: %v, message: %v" *)
| ErrFailedToSend (n : nat)               (* "failed to send %v messages" *)
| ErrNoShardIterator                      (* "failed to obtain shard iterator" *)
| ErrBackPressure (d : Z)                 (* "experienced back pressure beyond: %v" *)
| ErrOther (text : string).               (* errors.New(text) *)

#[global] Instance error_eq_dec : EqDecision error.
Proof. solve_decision. Defined.

(** [err.Error()]. *)
Definition Error (e : error) : string :=
  match e with
  | ErrNotConnected => "not connected to target source or sink"
  | ErrTimeout => "action timed out"
  | ContextCanceled => "context canceled"
  | ContextDeadlineExceeded => "context deadline exceeded"
  | ErrLeaseNotAcquired => "the shard could not be leased due to a collision"
  | AwsError code message None => code +:+ ": " +:+ message
  | AwsError code message (Some o) =>
      code +:+ ": " +:+ message +:+ String.String (Ascii.ascii_of_nat 10) ("caused by: " +:+ o)
  | ErrRecordFailed code message =>
      "record failed with code: " +:+ code +:+ ", message: " +:+ message
  | ErrFailedToSend n => "failed to send " +:+ pretty n +:+ " messages"
  | ErrNoShardIterator => "failed to obtain shard iterator"
  | ErrBackPressure d => "experienced back pressure beyond: " +:+ pretty d +:+ "ns"
  | ErrOther text => text
  end.

(** [strings.HasSuffix(s, suffix)]:
    [len(s) >= len(suffix) && s[len(s)-len(suffix):] == suffix]. *)
Definition HasSuffix (s suffix : string) : bool :=
  (String.length suffix <=? String.length s)%nat &&
  String.eqb
    (String.substring (String.length s - String.length suffix)
                      (String.length suffix) s)
    suffix.

(** [errors.Is(err, target)] for the sentinel targets used below: none of
    the errors above unwraps to another one (awserr's errors expose their
    cause through [OrigErr], not through [Unwrap]), so it is equality. *)
Definition errors_Is (e target : error) : bool := bool_decide (e = target).

End Errors.

Import Errors.

(** ** The SQS writer (output_sqs.go, first part) *)

Module SQS.

Definition sqsMaxRecordsCount : nat := 10.

(** [sqsAttributes]. *)
Record sqsAttributes : Type := mkAttrs {
  attrMap  : list (string * string);
  groupID  : option string;
  dedupeID : option string;
  content  : option string
}.

(** The zero value, what [attrMap[id]] yields for an id it does not hold. *)
Definition zeroAttrs : sqsAttributes := mkAttrs [] None None None.

(** [sqs.SendMessageBatchRequestEntry]: the id and the four fields that
    WriteBatch copies out of the attributes. *)
Record entry : Type := mkEntry {
  Id : string;
  entryAttrs : sqsAttributes
}.

(** [sqs.BatchResultErrorEntry]. *)
Record failedEntry : Type := mkFailed {
  failedId : string;
  SenderFault : bool;
  Code : string;
  Message : string
}.

(** Which case of the select that waits before a retry proceeds. *)
Inductive wake : Type :=
| TimerFired        (* case <-time.After(wait) *)
| CtxDone           (* case <-ctx.Done()       *)
| CloseSignalled.   (* case <-a.closeChan      *)

(** What the outside world does during one iteration of the send loop:
    the answer of [SendMessageBatch], the value of [backOff.NextBackOff()]
    ([None] is [backoff.Stop]), and, for the select, which channels are
    ready when it resolves and the runtime's pick among the ready ones. *)
Record iter_env : Type := mkIter {
  send       : error + list failedEntry;
  wait       : option Z;
  timerFired : bool;
  ctxDone    : bool;
  closed     : bool;
  pick       : nat
}.

(** The cases that can proceed, in source order. *)
Definition ready (ev : iter_env) : list wake :=
  (if timerFired ev then [TimerFired] else []) ++
  (if ctxDone ev then [CtxDone] else []) ++
  (if closed ev then [CloseSignalled] else []).

(** Go's select picks one ready case pseudo-randomly; when neither the
    context nor the close channel is signalled the timer is what ends the
    wait. *)
Definition select_wait (ev : iter_env) : wake :=
  match ready ev with
  | [] => TimerFired
  | r => nth (pick ev mod length r) r TimerFired
  end.

(** The variables of the loop: [input.Entries], [entries], [err]. *)
Record loop_state : Type := mkLoop {
  inputEntries : list entry;
  entries      : list entry;
  err          : option error
}.

Inductive outcome : Type :=
| Returned (r : option error)     (* WriteBatch returned r *)
| Running (s : loop_state).       (* the environment ended first *)


Section Writer.

(** A message of the batch, and [getSQSAttributes], which depends on the
    metadata filter and the interpolation functions of the service
    package. *)
Variable message : Type.
Variable getSQSAttributes : list message -> nat -> error + sqsAttributes.

(** [sqsWriter]: the client is nil until Connect. *)
Record sqsWriter : Type := mkWriter {
  URL : string;
  sqs : option string;          (* the client, named by its session *)
  session : string;
  log : list string
}.

(** [Connect]. *)
Definition Connect (a : sqsWriter) : sqsWriter * option error :=
  match sqs a with
  | Some _ => (a, None)
  | None =>
      ({| URL := URL a; sqs := Some (session a); session := session a;
          log := log a ++ ["Sending messages to Amazon SQS URL: " +:+ URL a] |},
       None)
  end.

(** The first loop of WriteBatch: attributes and one entry per message,
    ids [strconv.Itoa(i)]. *)
Fixpoint buildEntries (batch : list message) (i n : nat)
  : error + list entry :=
  match n with
  | O => inr []
  | S n' =>
      match getSQSAttributes batch i with
      | inl e => inl e
      | inr attrs =>
          match buildEntries batch (S i) n' with
          | inl e => inl e
          | inr es => inr (mkEntry (pretty i) attrs :: es)
          end
      end
  end.

Definition attrMapOf (es : list entry) : gmap string sqsAttributes :=
  list_to_map (map (fun e => (Id e, entryAttrs e)) es).

(** The loop over [batchResult.Failed]: a sender fault returns at once,
    any other failed entry is queued again. *)
Fixpoint requeue (am : gmap string sqsAttributes) (unproc : list failedEntry)
    (acc : list entry) : error + list entry :=
  match unproc with
  | [] => inr acc
  | v :: rest =>
      if SenderFault v then inl (ErrRecordFailed (Code v) (Message v))
      else requeue am rest
             (acc ++ [mkEntry (failedId v) (default zeroAttrs (am !! failedId v))])
  end.

(** "add remaining records to batch". *)
Definition refill (inp rest : list entry) : list entry * list entry :=
  let l := length inp in
  let n := length rest in
  if (0 <? n)%nat && (l <? sqsMaxRecordsCount)%nat then
    let remaining := (sqsMaxRecordsCount - l)%nat in
    if (remaining <? n)%nat
    then (inp ++ take remaining rest, drop remaining rest)
    else (inp ++ rest, [])
  else (inp, rest).

(** One pass through the body of [for len(input.Entries) > 0]:
    [inl s] goes round again, [inr r] returns [r]. *)
Definition iteration (am : gmap string sqsAttributes) (ev : iter_env)
    (s : loop_state) : loop_state + option error :=
  match send ev with
  | inl e =>
      match wait ev with
      | None => inr (Some e)
      | Some _ =>
          match select_wait ev with
          | TimerFired => inl (mkLoop (inputEntries s) (entries s) (Some e))
          | CtxDone => inr (Some ErrTimeout)
          | CloseSignalled => inr (Some e)
          end
      end
  | inr [] =>
      let '(inp, rest) := refill [] (entries s) in
      inl (mkLoop inp rest None)
  | inr unproc =>
      match requeue am unproc [] with
      | inl e => inr (Some e)
      | inr inp0 =>
          let e := ErrFailedToSend (length unproc) in
          match wait ev with
          | None => inr (Some e)
          | Some _ =>
              match select_wait ev with
              | TimerFired =>
                  let '(inp, rest) := refill inp0 (entries s) in
                  inl (mkLoop inp rest (Some e))
              | CtxDone => inr (Some ErrTimeout)
              | CloseSignalled => inr (Some e)
              end
          end
      end
  end.

(** The loop, driven by what the environment does in each iteration. *)
Fixpoint loop (am : gmap string sqsAttributes) (envs : list iter_env)
    (s : loop_state) : outcome :=
  match inputEntries s with
  | [] => Returned (err s)
  | _ :: _ =>
      match envs with
      | [] => Running s
      | ev :: envs' =>
          match iteration am ev s with
          | inl s' => loop am envs' s'
          | inr r => Returned r
          end
      end
  end.

(** "trim input length to max sqs batch size". *)
Definition firstChunk (es : list entry) : loop_state :=
  if (sqsMaxRecordsCount <? length es)%nat
  then mkLoop (take sqsMaxRecordsCount es) (drop sqsMaxRecordsCount es) None
  else mkLoop es [] None.

(** [WriteBatch]. *)
Definition WriteBatch (a : sqsWriter) (batch : list message)
    (envs : list iter_env) : outcome :=
  match sqs a with
  | None => Returned (Some ErrNotConnected)
  | Some _ =>
      match buildEntries batch 0 (length batch) with
      | inl e => Returned (Some e)
      | inr es => loop (attrMapOf es) envs (firstChunk es)
      end
  end.

End Writer.

Arguments buildEntries {_}.
Arguments WriteBatch {_}.

(** A response that reports no more failed entries than a request can
    hold. *)
Definition boundedResponse (ev : iter_env) : Prop :=
  match send ev with
  | inl _ => True
  | inr unproc => (length unproc <= sqsMaxRecordsCount)%nat
  end.

(** A writer with string messages, to run the loop on. *)
Definition demoAttrs (batch : list string) (i : nat) : error + sqsAttributes :=
  inr (mkAttrs [] None None (batch !! i)).

Definition demoWriter : sqsWriter :=
  mkWriter "https://sqs/queue" (Some "session") "session" [].


End SQS.

(** ** The Kinesis reader (output_sqs.go, second part) *)

Module Kinesis.

(** [awsKinesisConsumerState]. *)
Inductive awsKinesisConsumerState : Type :=
| awsKinesisConsumerConsuming
| awsKinesisConsumerYielding
| awsKinesisConsumerFinished
| awsKinesisConsumerClosing.

#[global] Instance state_eq_dec : EqDecision awsKinesisConsumerState.
Proof. solve_decision. Defined.

(** [kinesis.ShardIteratorType*]. *)
Inductive ShardIteratorType : Type :=
| ShardIteratorTypeTrimHorizon
| ShardIteratorTypeLatest
| ShardIteratorTypeAfterSequenceNumber.

(** [kinesis.GetShardIteratorInput]. *)
Record GetShardIteratorInput : Type := mkIterInput {
  StreamName : string;
  ShardIdOf : string;
  StartingSequenceNumber : option string;
  IteratorType : ShardIteratorType
}.

(** [GetShardIteratorWithContext]: an error, or an output whose
    [ShardIterator] pointer may be nil. *)
Definition shardIteratorAPI : Type :=
  GetShardIteratorInput -> error + option string.

(** [getIter]. *)
Definition getIter (StartFromOldest : bool) (svc : shardIteratorAPI)
    (streamID shardID sequence : string) : error + string :=
  let iterType :=
    if (0 <? String.length sequence)%nat then ShardIteratorTypeAfterSequenceNumber
    else if StartFromOldest then ShardIteratorTypeTrimHorizon
    else ShardIteratorTypeLatest in
  let startingSequence :=
    if (0 <? String.length sequence)%nat then Some sequence else None in
  match svc (mkIterInput streamID shardID startingSequence iterType) with
  | inl e => inl e
  | inr res =>
      let iter := default "" res in
      if String.eqb iter "" then
        (* If we failed to obtain from a sequence we start from beginning *)
        match svc (mkIterInput streamID shardID None ShardIteratorTypeTrimHorizon) with
        | inl e => inl e
        | inr res2 =>
            let iter2 := default "" res2 in
            if String.eqb iter2 "" then inl ErrNoShardIterator else inr iter2
        end
      else inr iter
  end.

(** [getRecords]: on error the input iterator is handed back. *)
Definition getRecords {R : Type} (res : error + (list R * option string))
    (shardIter : string) : list R * string * option error :=
  match res with
  | inl e => ([], shardIter, Some e)
  | inr (records, next) => (records, default "" next, None)
  end.

(** [awsErrIsTimeout], for a non-nil error. *)
Definition awsErrIsTimeout (e : error) : bool :=
  errors_Is e ContextCanceled ||
  errors_Is e ContextDeadlineExceeded ||
  errors_Is e ErrTimeout ||
  HasSuffix (Error e) "context canceled".

Definition ErrCodeExpiredIteratorException : string := "ExpiredIteratorException".

(** [aerr, ok := err.(awserr.Error); ok && aerr.Code() == ...]. *)
Definition isExpiredIterator (e : error) : bool :=
  match e with
  | AwsError code _ _ => String.eqb code ErrCodeExpiredIteratorException
  | _ => false
  end.

(** Which context a call is given. *)
Inductive callCtx : Type := ReaderCtx | CommitCtx | BackgroundCtx.

(** The per-shard record batcher ([awsKinesisRecordBatcher]) is defined
    in another file of the package; the consumer uses it through these
    methods only, so it is taken as an interface: [B] is its state, [R] a record, [M]
    a batched message with its ack function. *)
Class RecordBatcher (B R M : Type) : Type := {
  NewBatcher : string -> string -> string -> error + B;
  AddRecord : R -> B -> B * bool;
  FlushMessage : callCtx -> B -> B * option M * option error;
  HasPendingMessage : B -> bool;
  UntilNext : B -> option Z;
  GetSequence : B -> string;
  Close : bool -> B -> B
}.

(** What [nextPullChan] currently is. *)
Inductive pullChan : Type :=
| unblockedChan
| blockedChan
| timedChan (d : Z).    (* time.After(d) *)

(** The cases of the consumer's select. *)
Inductive selectCase : Type :=
| SelCommitDone     (* case <-commitCtx.Done()          *)
| SelTimedBatch     (* case <-nextTimedBatchChan        *)
| SelFlush          (* case nextFlushChan <- pendingMsg *)
| SelPull           (* case <-nextPullChan              *)
| SelCtxDone.       (* case <-k.ctx.Done()              *)

(** Calls that leave the process, in the order they are made. *)
Inductive action (M : Type) : Type :=
| SvcGetRecords (iter : string)
| SvcGetIter (streamID shardID sequence : string)
| CkptCheckpoint (streamID shardID sequence : string) (final : bool)
| CkptYield (streamID shardID sequence : string)
| CkptDelete (streamID shardID : string)
| Dispatch (m : M)
| WgDone.

Arguments SvcGetRecords {M}.
Arguments SvcGetIter {M}.
Arguments CkptCheckpoint {M}.
Arguments CkptYield {M}.
Arguments CkptDelete {M}.
Arguments Dispatch {M}.
Arguments WgDone {M}.

(** Is the action a call on the checkpointer? *)
Definition isCheckpointAction {M : Type} (a : action M) : bool :=
  match a with
  | CkptCheckpoint _ _ _ _ | CkptYield _ _ _ | CkptDelete _ _ => true
  | _ => false
  end.

(** What the outside world does during one turn of the consumer loop. *)
Record iter_env (R : Type) : Type := mkEnv {
  ev_getRecords : error + (list R * option string);
  ev_getShardIterator : shardIteratorAPI;
  ev_select : selectCase;
  ev_ctxDone : bool;                 (* k.ctx is cancelled *)
  ev_checkpoint : error + bool       (* Checkpoint(...): stillOwned *)
}.

Arguments mkEnv {R}.
Arguments ev_getRecords {R}.
Arguments ev_getShardIterator {R}.
Arguments ev_select {R}.
Arguments ev_ctxDone {R}.
Arguments ev_checkpoint {R}.

(** The variables of the consumer goroutine. *)
Record consumer (B R M : Type) : Type := mkConsumer {
  recordBatcher : B;
  pending : list R;
  iter : string;
  state : awsKinesisConsumerState;
  pendingMsg : option M;
  nextPullChan : pullChan;
  nextTimedBatchChan : option Z;
  boff : nat;                        (* NextBackOff calls since Reset *)
  trace : list (action M)
}.

Arguments mkConsumer {B R M}.
Arguments recordBatcher {B R M}.
Arguments pending {B R M}.
Arguments iter {B R M}.
Arguments state {B R M}.
Arguments pendingMsg {B R M}.
Arguments nextPullChan {B R M}.
Arguments nextTimedBatchChan {B R M}.
Arguments boff {B R M}.
Arguments trace {B R M}.

(** The part of [kinesisReader] the consumer reads. *)
Record readerConf : Type := mkConf {
  StartFromOldest : bool;
  backoffDelay : nat -> Z            (* the n-th NextBackOff() *)
}.

Section Consumer.

Context {B R M : Type} `{RecordBatcher B R M}.
Variable k : readerConf.
Variables streamID shardID : string.

Abbreviation consumer := (consumer B R M).

(** [unblockPullChan]. *)
Definition unblockPullChan (p : pullChan) : pullChan :=
  match p with
  | blockedChan => unblockedChan
  | _ => p
  end.

Definition isUnblocked (p : pullChan) : bool :=
  match p with unblockedChan => true | _ => false end.

Definition isConsuming (s : awsKinesisConsumerState) : bool :=
  bool_decide (s = awsKinesisConsumerConsuming).

Definition isFinished (s : awsKinesisConsumerState) : bool :=
  bool_decide (s = awsKinesisConsumerFinished).

Definition isNil {A : Type} (l : list A) : bool :=
  match l with [] => true | _ => false end.

(** The first part of the loop body: pull records when there is nothing
    pending and the pull channel is unblocked. *)
Definition pull_section (ev : iter_env R) (c : consumer) : consumer :=
  if isConsuming (state c) && isNil (pending c) && isUnblocked (nextPullChan c)
  then
    let '(recs, it, e) := getRecords (ev_getRecords ev) (iter c) in
    let tr := trace c ++ [SvcGetRecords (iter c)] in
    let c1 :=
      match e with
      | Some e =>
          if negb (awsErrIsTimeout e) then
            let next := timedChan (backoffDelay k (boff c)) in
            if isExpiredIterator e then
              let seq := GetSequence (recordBatcher c) in
              match getIter (StartFromOldest k) (ev_getShardIterator ev)
                            streamID shardID seq with
              | inl _ =>
                  mkConsumer (recordBatcher c) recs it (state c) (pendingMsg c)
                    next (nextTimedBatchChan c) (S (boff c))
                    (tr ++ [SvcGetIter streamID shardID seq])
              | inr newIter =>
                  mkConsumer (recordBatcher c) recs newIter (state c) (pendingMsg c)
                    next (nextTimedBatchChan c) (S (boff c))
                    (tr ++ [SvcGetIter streamID shardID seq])
              end
            else
              mkConsumer (recordBatcher c) recs it (state c) (pendingMsg c)
                next (nextTimedBatchChan c) (S (boff c)) tr
          else
            mkConsumer (recordBatcher c) recs it (state c) (pendingMsg c)
              (nextPullChan c) (nextTimedBatchChan c) (boff c) tr
      | None =>
          if isNil recs then
            mkConsumer (recordBatcher c) recs it (state c) (pendingMsg c)
              (timedChan (backoffDelay k (boff c))) (nextTimedBatchChan c)
              (S (boff c)) tr
          else
            mkConsumer (recordBatcher c) recs it (state c) (pendingMsg c)
              blockedChan (nextTimedBatchChan c) 0 tr
      end in
    if String.eqb (iter c1) "" then
      mkConsumer (recordBatcher c1) (pending c1) (iter c1)
        awsKinesisConsumerFinished (pendingMsg c1) (nextPullChan c1)
        (nextTimedBatchChan c1) (boff c1) (trace c1)
    else c1
  else
    mkConsumer (recordBatcher c) (pending c) (iter c) (state c) (pendingMsg c)
      (unblockPullChan (nextPullChan c)) (nextTimedBatchChan c) (boff c) (trace c).

(** [for i, r = range pending { if AddRecord(r) { flush; break } }] and
    [pending = pending[i+1:]]. *)
Fixpoint addRecords (b : B) (recs : list R) : B * option M * list R :=
  match recs with
  | [] => (b, None, [])
  | r :: rest =>
      let '(b1, full) := AddRecord r b in
      if full then
        let '(b2, m, _) := FlushMessage CommitCtx b1 in (b2, m, rest)
      else addRecords b1 rest
  end.

(** The second part: prepare the next message to flush.  [inr] is the
    [return] of a finished consumer that has nothing left. *)
Definition flush_section (c : consumer) : consumer + consumer :=
  match pendingMsg c with
  | Some _ => inl c
  | None =>
      if isNil (pending c) && isFinished (state c) then
        let '(b1, m, _) := FlushMessage ReaderCtx (recordBatcher c) in
        let c1 := mkConsumer b1 (pending c) (iter c) (state c) m
                    (nextPullChan c) (nextTimedBatchChan c) (boff c) (trace c) in
        match m with
        | None => inr c1
        | Some _ => inl c1
        end
      else if HasPendingMessage (recordBatcher c) then
        let '(b1, m, _) := FlushMessage CommitCtx (recordBatcher c) in
        inl (mkConsumer b1 (pending c) (iter c) (state c) m
               (nextPullChan c) (nextTimedBatchChan c) (boff c) (trace c))
      else if negb (isNil (pending c)) then
        let '(b1, m, rest) := addRecords (recordBatcher c) (pending c) in
        inl (mkConsumer b1 rest (iter c) (state c) m
               (if isNil rest then unblockPullChan (nextPullChan c)
                else nextPullChan c)
               (nextTimedBatchChan c) (boff c) (trace c))
      else
        inl (mkConsumer (recordBatcher c) (pending c) (iter c) (state c)
               (pendingMsg c) (unblockPullChan (nextPullChan c))
               (nextTimedBatchChan c) (boff c) (trace c))
  end.

(** [if nextTimedBatchChan == nil { if tNext, exists := UntilNext() ... }]. *)
Definition arm_timed_batch (c : consumer) : consumer :=
  match nextTimedBatchChan c with
  | Some _ => c
  | None =>
      mkConsumer (recordBatcher c) (pending c) (iter c) (state c) (pendingMsg c)
        (nextPullChan c) (UntilNext (recordBatcher c)) (boff c) (trace c)
  end.

(** Can the case proceed?  A receive from a nil channel, a send on a nil
    channel and a receive from [blockedChan] never do. *)
Definition enabled (ev : iter_env R) (c : consumer) (s : selectCase) : bool :=
  match s with
  | SelCommitDone => true
  | SelTimedBatch => bool_decide (is_Some (nextTimedBatchChan c))
  | SelFlush => bool_decide (is_Some (pendingMsg c))
  | SelPull => match nextPullChan c with blockedChan => false | _ => true end
  | SelCtxDone => ev_ctxDone ev
  end.

(** The case the select takes: the one the environment names when it can
    proceed; otherwise the commit context, whose timeout always arrives. *)
Definition chosen (ev : iter_env R) (c : consumer) : selectCase :=
  if enabled ev c (ev_select ev) then ev_select ev else SelCommitDone.

Definition setState (s : awsKinesisConsumerState) (c : consumer) : consumer :=
  mkConsumer (recordBatcher c) (pending c) (iter c) s (pendingMsg c)
    (nextPullChan c) (nextTimedBatchChan c) (boff c) (trace c).

(** The select.  [inr] is a [return]. *)
Definition select_section (ev : iter_env R) (c : consumer) : consumer + consumer :=
  match chosen ev c with
  | SelCommitDone =>
      if ev_ctxDone ev then inr (setState awsKinesisConsumerClosing c)
      else
        let seq := GetSequence (recordBatcher c) in
        let c1 := mkConsumer (recordBatcher c) (pending c) (iter c) (state c)
                    (pendingMsg c) (nextPullChan c) (nextTimedBatchChan c) (boff c)
                    (trace c ++ [CkptCheckpoint streamID shardID seq false]) in
        match ev_checkpoint ev with
        | inl _ => inl c1
        | inr true => inl c1
        | inr false => inr (setState awsKinesisConsumerYielding c1)
        end
  | SelTimedBatch =>
      inl (mkConsumer (recordBatcher c) (pending c) (iter c) (state c)
             (pendingMsg c) (nextPullChan c) None (boff c) (trace c))
  | SelFlush =>
      inl (mkConsumer (recordBatcher c) (pending c) (iter c) (state c)
             None (nextPullChan c) (nextTimedBatchChan c) (boff c)
             (trace c ++ match pendingMsg c with
                         | Some m => [Dispatch m]
                         | None => []
                         end))
  | SelPull =>
      inl (mkConsumer (recordBatcher c) (pending c) (iter c) (state c)
             (pendingMsg c) unblockedChan (nextTimedBatchChan c) (boff c) (trace c))
  | SelCtxDone => inr (setState awsKinesisConsumerClosing c)
  end.

(** One turn of [for { ... }]: [inl] goes round again, [inr] returns. *)
Definition iteration (ev : iter_env R) (c : consumer) : consumer + consumer :=
  match flush_section (pull_section ev c) with
  | inr c1 => inr c1
  | inl c1 => select_section ev (arm_timed_batch c1)
  end.

(** The calls the deferred function of the goroutine makes, by the state
    the loop returned in. *)
Definition exitActions (c : consumer) : list (action M) :=
  let seq := GetSequence (recordBatcher c) in
  match state c with
  | awsKinesisConsumerFinished => [CkptDelete streamID shardID]
  | awsKinesisConsumerYielding => [CkptYield streamID shardID seq]
  | awsKinesisConsumerClosing => [CkptCheckpoint streamID shardID seq true]
  | awsKinesisConsumerConsuming => []
  end ++ [WgDone].

(** The deferred function: close the batcher, reset the backoff, then the
    switch on the state, then [wg.Done()]. *)
Definition deferred (c : consumer) : consumer :=
  let b1 := Close (isFinished (state c)) (recordBatcher c) in
  let c1 := mkConsumer b1 (pending c) (iter c) (state c) (pendingMsg c)
              (nextPullChan c) (nextTimedBatchChan c) 0 (trace c) in
  mkConsumer b1 (pending c) (iter c) (state c) (pendingMsg c)
    (nextPullChan c) (nextTimedBatchChan c) 0 (trace c ++ exitActions c1).

Inductive run_result : Type :=
| Exited (atReturn final : consumer)   (* the loop returned, the deferred ran *)
| StillRunning (c : consumer).         (* the environment ended first *)

(** The goroutine. *)
Fixpoint goroutine (envs : list (iter_env R)) (c : consumer) : run_result :=
  match envs with
  | [] => StillRunning c
  | ev :: envs' =>
      match iteration ev c with
      | inl c1 => goroutine envs' c1
      | inr c1 => Exited c1 (deferred c1)
      end
  end.

(** [runConsumer] up to the [go] statement: the batcher, then the first
    iterator.  On an error the deferred function of runConsumer releases
    the wait group and yields the checkpoint. *)
Definition runConsumer (svc : shardIteratorAPI) (startingSequence : string)
    : (error * list (action M)) + consumer :=
  let onInitErr :=
    [WgDone; CkptCheckpoint streamID shardID startingSequence true] in
  match NewBatcher streamID shardID startingSequence with
  | inl e => inl (e, onInitErr)
  | inr b =>
      match getIter (StartFromOldest k) svc streamID shardID startingSequence with
      | inl e => inl (e, SvcGetIter streamID shardID startingSequence :: onInitErr)
      | inr it =>
          inr (mkConsumer b [] it awsKinesisConsumerConsuming None
                 unblockedChan None 0
                 [SvcGetIter streamID shardID startingSequence])
      end
  end.

(** What holds of the state and the iterator whenever the loop goes
    round: the consumer is consuming from an iterator, or it is finished
    and the iterator is spent. *)
Definition consumerInv (c : consumer) : Prop :=
  (state c = awsKinesisConsumerConsuming /\ iter c <> "") \/
  (state c = awsKinesisConsumerFinished /\ iter c = "").

(** Why the loop returned, read off the last turn's environment and the
    state it returned in. *)
Definition exitCause (ev : iter_env R) (c : consumer) : Prop :=
  (state c = awsKinesisConsumerFinished /\
     iter c = "" /\ pending c = [] /\ pendingMsg c = None) \/
  (state c = awsKinesisConsumerYielding /\
     ev_checkpoint ev = inr false /\ ev_ctxDone ev = false) \/
  (state c = awsKinesisConsumerClosing /\ ev_ctxDone ev = true).

(** The checkpointer call that belongs to a terminal state. *)
Definition exitCheckpoint (s : awsKinesisConsumerState) (sequence : string)
    : list (action M) :=
  match s with
  | awsKinesisConsumerFinished => [CkptDelete streamID shardID]
  | awsKinesisConsumerYielding => [CkptYield streamID shardID sequence]
  | awsKinesisConsumerClosing => [CkptCheckpoint streamID shardID sequence true]
  | awsKinesisConsumerConsuming => []
  end.

End Consumer.

(** *** Rebalancing ([runBalancedShards]) *)

(** [awsKinesisClientClaim]. *)
Record awsKinesisClientClaim : Type := mkClaim {
  ShardID : string;
  LeaseTimeout : Z                   (* a time.Time, in nanoseconds *)
}.

(** [kinesis.Shard]: the id, and [SequenceNumberRange] with its
    [EndingSequenceNumber], both pointers. *)
Record Shard : Type := mkShard {
  ShardId : string;
  SequenceNumberRange : option (option string)
}.

(** [isShardFinished]. *)
Definition isShardFinished (s : Shard) : bool :=
  match SequenceNumberRange s with
  | None => false
  | Some None => false
  | Some (Some ending) => negb (String.eqb ending "null")
  end.

Definition maxDuration : Z := 2 ^ 63 - 1.
Definition minDuration : Z := - 2 ^ 63.

(** [time.Since(t)]: a Duration, saturating at its bounds. *)
Definition Since (now t : Z) : Z :=
  Z.max minDuration (Z.min maxDuration (now - t)).

(** Duration arithmetic is int64 arithmetic. *)
Definition wrap64 (z : Z) : Z := (z + 2 ^ 63) mod 2 ^ 64 - 2 ^ 63.

(** What the outside world does while one stream is rebalanced.  The
    claims are a Go map; the list is that map in the order the range
    statement visits it. *)
Record pass_env : Type := mkPass {
  pe_ListShards : error + list Shard;
  pe_AllClaims : error + list (string * list awsKinesisClientClaim);
  pe_now : Z;
  pe_ctxErr : bool;                                (* k.ctx.Err() != nil *)
  pe_Claim : string -> string -> error + string;   (* Claim(shard, from) *)
  pe_runConsumer : string -> string -> option error;
  pe_rand : string -> nat                          (* rand.Int() at that client *)
}.

Inductive pass_action : Type :=
| ClaimUnclaimed (shardID fromClient : string)
| StealAttempt (victim shardID : string)
| RunConsumer (shardID sequence : string).

(** How the body of [for _, streamID := range k.balancedStreams] ends. *)
Inductive pass_end : Type :=
| NextStream        (* falls through or continues to the next stream *)
| Return.           (* runBalancedShards returns *)

Section Rebalance.

Variable clientID : string.          (* k.clientID *)
Variable leasePeriod : Z.            (* k.leasePeriod *)

(** [unclaimedShards] after the two loops that fill it. *)
Definition unclaimedOf (now : Z) (shards : list Shard)
    (clientClaims : list (string * list awsKinesisClientClaim))
    : gmap string string :=
  let m0 := foldl (fun m s => if isShardFinished s then m
                              else <[ShardId s := ""]> m) ∅ shards in
  foldl (fun m cc =>
           foldl (fun m claim =>
                    if (wrap64 (leasePeriod * 2) <? Since now (LeaseTimeout claim))%Z
                    then <[ShardID claim := fst cc]> m
                    else delete (ShardID claim) m)
                 m (snd cc))
        m0 clientClaims.

(** "Have a go at grabbing any unclaimed shards". *)
Fixpoint grab (env : pass_env) (unclaimed : list (string * string))
    : list pass_action * pass_end :=
  match unclaimed with
  | [] => ([], NextStream)
  | (shardID, from) :: rest =>
      match pe_Claim env shardID from with
      | inl _ =>
          if pe_ctxErr env then ([ClaimUnclaimed shardID from], Return)
          else let '(tr, e) := grab env rest in
               (ClaimUnclaimed shardID from :: tr, e)
      | inr sequence =>
          let '(tr, e) := grab env rest in
          (ClaimUnclaimed shardID from :: RunConsumer shardID sequence :: tr, e)
      end
  end.

(** [clientClaims[k.clientID]]: nil when the map has no such key. *)
Definition claimsOf (id : string)
    (clientClaims : list (string * list awsKinesisClientClaim))
    : list awsKinesisClientClaim :=
  match List.find (fun cc => String.eqb (fst cc) id) clientClaims with
  | Some cc => snd cc
  | None => []
  end.

(** [claims[(rand.Int() % len(claims))].ShardID]. *)
Definition randomShard (r : nat) (claims : list awsKinesisClientClaim) : string :=
  match claims !! (r mod length claims)%nat with
  | Some c => ShardID c
  | None => ""
  end.

(** "There were no unclaimed shards, let's look for a shard to steal." *)
Fixpoint steal (env : pass_env) (selfClaims : nat)
    (clientClaims : list (string * list awsKinesisClientClaim))
    : list pass_action * pass_end :=
  match clientClaims with
  | [] => ([], NextStream)
  | (client, claims) :: rest =>
      if String.eqb client clientID then steal env selfClaims rest
      else if (selfClaims + 1 <? length claims)%nat then
        let shard := randomShard (pe_rand env client) claims in
        match pe_Claim env shard client with
        | inl _ =>
            if pe_ctxErr env then ([StealAttempt client shard], Return)
            else let '(tr, e) := steal env selfClaims rest in
                 (StealAttempt client shard :: tr, e)
        | inr sequence =>
            match pe_runConsumer env shard sequence with
            | Some _ =>
                let '(tr, e) := steal env selfClaims rest in
                (StealAttempt client shard :: RunConsumer shard sequence :: tr, e)
            | None =>
                ([StealAttempt client shard; RunConsumer shard sequence], NextStream)
            end
        end
      else steal env selfClaims rest
  end.

(** The body of the loop over the balanced streams, for one stream.  The
    second component tells whether unclaimed shards were found.  Go
    ranges over [unclaimedShards] in an unspecified order; [map_to_list]
    fixes one. *)
Definition rebalanceStream (env : pass_env)
    : list pass_action * pass_end * bool :=
  let res :=
    match pe_ListShards env with
    | inl e => inl e
    | inr shards =>
        match pe_AllClaims env with
        | inl e => inl e
        | inr claims => inr (shards, claims)
        end
    end in
  match res with
  | inl _ => ([], if pe_ctxErr env then Return else NextStream, false)
  | inr (shards, clientClaims) =>
      let unclaimedShards := unclaimedOf (pe_now env) shards clientClaims in
      if (0 <? size unclaimedShards)%nat then
        (grab env (map_to_list unclaimedShards), true)
      else
        (steal env (length (claimsOf clientID clientClaims)) clientClaims, false)
  end.

End Rebalance.

(** *** Connect *)

(** The fields of [kinesisReader] that Connect reads and writes. *)
Record kinesisReader : Type := mkReader {
  svc : option string;
  checkpointer : option string;
  msgChan : option nat;              (* nil, or the channel made by Connect *)
  explicitShards : bool;             (* len(k.streamShards) > 0 *)
  sess : string;
  started : list string              (* the goroutines Connect has started *)
}.

Record connect_env : Type := mkConnectEnv {
  ce_newCheckpointer : error + string;       (* newAWSKinesisCheckpointer *)
  ce_newChan : nat;                          (* make(chan asyncMessage) *)
  ce_waitUntilStreamsExists : option error
}.

(** [Connect]. *)
Definition Connect (env : connect_env) (k : kinesisReader)
    : kinesisReader * option error :=
  match msgChan k with
  | Some _ => (k, None)
  | None =>
      match ce_newCheckpointer env with
      | inl e => (k, Some e)
      | inr cp =>
          let k1 := mkReader (Some (sess k)) (Some cp) (Some (ce_newChan env))
                      (explicitShards k) (sess k) (started k) in
          match ce_waitUntilStreamsExists env with
          | Some e => (k1, Some e)
          | None =>
              (mkReader (svc k1) (checkpointer k1) (msgChan k1)
                 (explicitShards k1) (sess k1)
                 (started k1 ++ [if explicitShards k1 then "runExplicitShards"
                                 else "runBalancedShards"]),
               None)
          end
      end
  end.

(** *** Concrete instances to run the definitions on *)

(** A batcher with a count policy of one: a record is its sequence
    number, a flushed message is the list of records in it, and the
    sequence advances as messages are flushed. *)
#[global] Instance countOneBatcher : RecordBatcher (list string * string) string (list string) := {
  NewBatcher _ _ startingSequence := inr ([], startingSequence);
  AddRecord r b := ((fst b ++ [r], snd b), true);
  FlushMessage _ b :=
    match fst b with
    | [] => (b, None, None)
    | r :: rs => (([], List.last rs r), Some (r :: rs), None)
    end;
  HasPendingMessage _ := false;
  UntilNext _ := None;
  GetSequence b := snd b;
  Close _ b := b
}.

Definition demoConf : readerConf := mkConf true (fun n => 300 * Z.of_nat (S n))%Z.

(** A service that hands out one iterator per request. *)
Definition demoIterators : shardIteratorAPI :=
  fun req => inr (Some ("iter-after-" +:+ default "start" (StartingSequenceNumber req))).

(** A service that refuses every request. *)
Definition throttledIterators : shardIteratorAPI :=
  fun _ => inl (AwsError "ProvisionedThroughputExceededException" "slow down" None).

Definition expired : error :=
  AwsError ErrCodeExpiredIteratorException "Iterator expired" None.

(** Two clients and a stream of two shards, both leased to the other
    client a moment ago. *)
Definition twoShardsHeldByOther : pass_env :=
  mkPass (inr [mkShard "shard-0" None; mkShard "shard-1" None])
         (inr [("other", [mkClaim "shard-0" 1000; mkClaim "shard-1" 1000])])
         1005 false
         (fun _ _ => inl ErrLeaseNotAcquired)
         (fun _ _ => None)
         (fun _ => 7%nat).

(** A consumer of shard-0 started after sequence 100, and three ways its
    loop can go: the shard ends after one last record, a commit finds
    the shard owned by another client, the reader is closed. *)
Definition demoEnd : list (iter_env string) :=
  [mkEnv (inr (["101"], None)) demoIterators SelFlush false (inr true);
   mkEnv (inr ([], None)) demoIterators SelPull false (inr true)].

Definition demoStolen : list (iter_env string) :=
  [mkEnv (inr (["101"], Some "iter-2")) demoIterators SelFlush false (inr true);
   mkEnv (inr ([], Some "iter-3")) demoIterators SelCommitDone false (inr false)].

Definition demoClosed : list (iter_env string) :=
  [mkEnv (inr (["101"], Some "iter-2")) demoIterators SelCtxDone true (inr true)].

(** A pull that finds the iterator expired, with a service that hands out
    a new one, and with a service that refuses. *)
Definition demoExpiredPull : iter_env string :=
  mkEnv (inl expired) demoIterators SelPull false (inr true).

Definition demoExpiredPullRefused : iter_env string :=
  mkEnv (inl expired) throttledIterators SelPull false (inr true).

Definition demoConsuming : consumer (list string * string) string (list string) :=
  mkConsumer ([], "100") [] "iter-1" awsKinesisConsumerConsuming None
    unblockedChan None 0 [].


End Kinesis.

(** ** The NATS outputs (output_kv.go, output_jetstream.go) *)

Module Nats.

(** What the NATS client answers during one Connect. *)
Record connect_env : Type := mkConnectEnv {
  ce_Connect : error + nat;          (* nats.Connect: a connection *)
  ce_JetStream : error + nat;        (* natsConn.JetStream() *)
  ce_KeyValue : error + nat          (* jsc.KeyValue(bucket) *)
}.

(** [kvOutput]: the fields Connect and disconnect touch. *)
Record kvOutput : Type := mkKV {
  kv_bucket : string;
  kv_keyRaw : string;
  kv_natsConn : option nat;
  kv_keyValue : option nat;
  kv_log : list string;
  kv_closed : list nat               (* connections closed so far *)
}.

(** [kvOutput.Connect]. *)
Definition kvConnect (env : connect_env) (kv : kvOutput) : kvOutput * option error :=
  match kv_natsConn kv with
  | Some _ => (kv, None)
  | None =>
      match ce_Connect env with
      | inl e => (kv, Some e)
      | inr natsConn =>
          match ce_JetStream env with
          | inl e =>
              (mkKV (kv_bucket kv) (kv_keyRaw kv) None (kv_keyValue kv) (kv_log kv)
                 (kv_closed kv ++ [natsConn]), Some e)
          | inr _ =>
              match ce_KeyValue env with
              | inl e =>
                  (mkKV (kv_bucket kv) (kv_keyRaw kv) None None (kv_log kv)
                     (kv_closed kv ++ [natsConn]), Some e)
              | inr keyValue =>
                  (mkKV (kv_bucket kv) (kv_keyRaw kv) (Some natsConn) (Some keyValue)
                     (kv_log kv ++ ["Setting values on NATS KV bucket: " +:+ kv_bucket kv
                                    +:+ " and key: " +:+ kv_keyRaw kv])
                     (kv_closed kv), None)
              end
          end
      end
  end.

(** [kvOutput.disconnect]. *)
Definition kvDisconnect (kv : kvOutput) : kvOutput :=
  mkKV (kv_bucket kv) (kv_keyRaw kv) None None (kv_log kv)
    (kv_closed kv ++ match kv_natsConn kv with Some c => [c] | None => [] end).

(** [jetStreamOutput]. *)
Record jetStreamOutput : Type := mkJS {
  js_subjectStrRaw : string;
  js_natsConn : option nat;
  js_jCtx : option nat;
  js_log : list string;
  js_closed : list nat
}.

(** [jetStreamOutput.Connect]. *)
Definition jsConnect (env : connect_env) (j : jetStreamOutput)
    : jetStreamOutput * option error :=
  match js_natsConn j with
  | Some _ => (j, None)
  | None =>
      match ce_Connect env with
      | inl e => (j, Some e)
      | inr natsConn =>
          match ce_JetStream env with
          | inl e =>
              (mkJS (js_subjectStrRaw j) None (js_jCtx j) (js_log j)
                 (js_closed j ++ [natsConn]), Some e)
          | inr jCtx =>
              (mkJS (js_subjectStrRaw j) (Some natsConn) (Some jCtx)
                 (js_log j ++ ["Sending NATS messages to JetStream subject: "
                               +:+ js_subjectStrRaw j])
                 (js_closed j), None)
          end
      end
  end.

(** [jetStreamOutput.disconnect]. *)
Definition jsDisconnect (j : jetStreamOutput) : jetStreamOutput :=
  mkJS (js_subjectStrRaw j) None None (js_log j)
    (js_closed j ++ match js_natsConn j with Some c => [c] | None => [] end).



End Nats.

(** ** The dynamic brokers (input_dynamic.go and its output sibling) *)

Module Dynamic.

Section Broker.

(** A component configuration ([input.Config] / [output.Config]), a built
    component, and the three calls whose code lives in other packages:
    [yaml.Unmarshal] over the default config, the manager's constructor at
    path [dynamic/inputs/id], and [pure.RetryOutputIndefinitely]. *)
Variables config component : Type.
Variable unmarshal : string -> error + config.
Variable construct : string -> config -> error + component.
Variable retryIndefinitely : component -> error + component.

(** What the broker answers to [SetInput] / [SetOutput] ([None] is nil). *)
Definition set_result : Type := option error.

(** The callback registered with [dynAPI.OnUpdate] by [newDynamicInput];
    the state is the [inputConfigs] map. *)
Definition inputOnUpdate (setInput : set_result) (id c : string)
    (inputConfigs : gmap string config) : gmap string config * option error :=
  match unmarshal c with
  | inl e => (inputConfigs, Some e)
  | inr newConf =>
      match construct id newConf with
      | inl e => (inputConfigs, Some e)
      | inr _ =>
          let inputConfigs1 := <[id := newConf]> inputConfigs in
          match setInput with
          | Some e => (delete id inputConfigs1, Some e)
          | None => (inputConfigs1, None)
          end
      end
  end.

(** The callback registered by [newDynamicOutput]. *)
Definition outputOnUpdate (setOutput : set_result) (id c : string)
    (outputConfigs : gmap string config) : gmap string config * option error :=
  match unmarshal c with
  | inl e => (outputConfigs, Some e)
  | inr newConf =>
      match construct id newConf with
      | inl e => (outputConfigs, Some e)
      | inr newOutput =>
          match retryIndefinitely newOutput with
          | inl e => (outputConfigs, Some e)
          | inr _ =>
              let outputConfigs1 := <[id := newConf]> outputConfigs in
              match setOutput with
              | Some e => (delete id outputConfigs1, Some e)
              | None => (outputConfigs1, None)
              end
          end
      end
  end.

(** The "started" callback handed to the broker: it reports the config of
    [l] to the API and forgets it.  The second component is the config
    passed to [dynAPI.Started], if the call is made. *)
Definition onStarted (l : string) (configs : gmap string config)
    : gmap string config * option config :=
  match configs !! l with
  | None => (configs, None)
  | Some uConf => (delete l configs, Some uConf)
  end.


End Broker.

End Dynamic.

(** ** The drop_on output *)

Module DropOn.

(** The policy flags of the wrapper. *)
Record dropOnConfig : Type := mkDropOn {
  on_error : bool;
  back_pressure : option Z           (* a duration, when set *)
}.

(** What the child output does with one transaction: it accepts it after
    some time and responds, or it never accepts it. *)
Inductive childBehaviour : Type :=
| Accepts (after : Z) (res : option error)
| NeverAccepts.

Inductive upstream : Type :=
| Responded (r : option error)
| Waiting.                           (* no response: the child blocks *)

Record result : Type := mkResult {
  response : upstream;
  delivered : bool;                  (* the child received the transaction *)
  logged : list error
}.

(** The error produced on back pressure, as the tests of the wrapper read
    it back: "experienced back pressure beyond: 100ms". *)
Definition backPressureError (d : Z) : error := ErrBackPressure d.

(** "Broker wrappers convert classes of error into alternative outcomes
    per their configuration": with [on_error] a non-nil result becomes
    nil. *)
Definition surface (conf : dropOnConfig) (res : option error) : option error :=
  match res with
  | Some e => if on_error conf then None else Some e
  | None => None
  end.

(** Has the child failed to accept within the back-pressure duration? *)
Definition backPressured (conf : dropOnConfig) (child : childBehaviour)
    : option Z :=
  match back_pressure conf, child with
  | Some d, NeverAccepts => Some d
  | Some d, Accepts after _ => if (d <? after)%Z then Some d else None
  | None, _ => None
  end.

(** Modelled from the spec: the drop_on output writer, whose
    implementation is not among the sources (only its tests are).  A child
    error is dropped when [on_error] is set and surfaced otherwise; when
    [back_pressure] is set and the child has not accepted the transaction
    within that duration the transaction is dropped and a back-pressure
    error is logged.  What is then responded upstream is taken from the
    tests, which read the back-pressure error back when [on_error] is
    unset (TestDropOnBackpressureWithErrors) and nil when it is set
    (TestDropOnDisconnectBackpressureNoErrors). *)
Definition dropOn (conf : dropOnConfig) (child : childBehaviour) : result :=
  match backPressured conf child with
  | Some d =>
      mkResult (Responded (surface conf (Some (backPressureError d))))
               false [backPressureError d]
  | None =>
      match child with
      | NeverAccepts => mkResult Waiting false []
      | Accepts _ res =>
          mkResult (Responded (surface conf res)) true
                   (match res with
                    | Some e => if on_error conf then [e] else []
                    | None => []
                    end)
      end
  end.

(** Modelled from the spec: the same wrapper read from the sentence of
    the design document alone, "the transaction is dropped (respond nil
    upstream) and a back_pressure error is logged". *)
Definition dropOn_as_documented (conf : dropOnConfig) (child : childBehaviour)
    : result :=
  match backPressured conf child with
  | Some d => mkResult (Responded None) false [backPressureError d]
  | None => dropOn conf child
  end.

(** The situations of the tests: a child that answers 403 at once, a
    websocket child whose server refuses or has gone away (it never
    accepts), and one that accepts and delivers. *)
Definition ms (n : Z) : Z := (n * 1000000)%Z.

Definition forbidden : error :=
  ErrOther "HTTP request returned unexpected response code (403): 403 Forbidden, Error: test error".

Definition childForbidden : childBehaviour := Accepts 0 (Some forbidden).
Definition childUnreachable : childBehaviour := NeverAccepts.
Definition childDelivers : childBehaviour := Accepts 0 None.

End DropOn.

(** ** The dedupe processor *)

Module Dedupe.

(** The processor's configuration. *)
Record dedupeConfig : Type := mkDedupe {
  cache : string;                    (* the name of the cache resource *)
  drop_on_err : bool
}.

Section Processor.

(** A message, and the fingerprint the key interpolation computes. *)
Variable message : Type.
Variable key : message -> string.

(** The manager's caches, by name; a cache is the set of keys it holds
    (within its retention window nothing leaves it). *)
Definition caches : Type := gmap string (gset string).

(** Modelled from the spec: the dedupe processor on one message (its
    implementation is not among the sources, only its tests are).  It
    computes the fingerprint and looks it up in the named cache: if the
    cache cannot be accessed the message is dropped or forwarded by
    [drop_on_err]; if the key is present the message is dropped; if it is
    absent the key is written and the message forwarded. *)
Definition processMessage (conf : dedupeConfig) (cs : caches) (m : message)
    : caches * option message :=
  match cs !! cache conf with
  | None => (cs, if drop_on_err conf then None else Some m)
  | Some keys =>
      if bool_decide (key m ∈ keys) then (cs, None)
      else (<[cache conf := {[key m]} ∪ keys]> cs, Some m)
  end.

(** The messages of a sequence, one after the other. *)
Fixpoint processAll (conf : dedupeConfig) (cs : caches) (ms : list message)
    : caches * list message :=
  match ms with
  | [] => (cs, [])
  | m :: rest =>
      let '(cs1, o) := processMessage conf cs m in
      let '(cs2, out) := processAll conf cs1 rest in
      (cs2, match o with Some m' => m' :: out | None => out end)
  end.

(** Modelled from the spec: [ProcessBatch], "a processor consumes a batch
    and produces zero or more output batches": the surviving messages as
    one batch, or no batch when none survives. *)
Definition ProcessBatch (conf : dedupeConfig) (cs : caches) (batch : list message)
    : caches * list (list message) :=
  let '(cs1, out) := processAll conf cs batch in
  (cs1, match out with [] => [] | _ => [out] end).

(** A stream of batches through the processor: everything that emerges. *)
Fixpoint processStream (conf : dedupeConfig) (cs : caches)
    (batches : list (list message)) : caches * list message :=
  match batches with
  | [] => (cs, [])
  | b :: rest =>
      let '(cs1, out) := ProcessBatch conf cs b in
      let '(cs2, outs) := processStream conf cs1 rest in
      (cs2, concat out ++ outs)
  end.

End Processor.

Arguments processMessage {_}.
Arguments processAll {_}.
Arguments ProcessBatch {_}.
Arguments processStream {_}.

(** The processor of the tests: cache "foocache", key [content()]. *)
Definition fooConf (dropOnErr : bool) : dedupeConfig := mkDedupe "foocache" dropOnErr.

Definition contentKey (m : string) : string := m.

Definition emptyFoocache : gmap string (gset string) := {["foocache" := ∅]}.

End Dedupe.

(** ** The Kinesis reader: configuration and explicit shards *)

Module KinesisSetup.

(** [strings.Split(s, sep)] for a separator of one byte: the substrings
    between the separators, one string when there is none. *)
Fixpoint Split (s : string) (sep : Ascii.ascii) : list string :=
  match s with
  | EmptyString => [""]
  | String c rest =>
      if Ascii.eqb c sep then "" :: Split rest sep
      else match Split rest sep with
           | h :: t => String c h :: t
           | [] => [String c ""]
           end
  end.

Definition comma : Ascii.ascii := Ascii.ascii_of_nat 44.
Definition colon : Ascii.ascii := Ascii.ascii_of_nat 58.

Definition errCannotMixBalancedShards : error :=
  ErrOther "it is not currently possible to include balanced and explicit shard streams in the same kinesis input".

(** The error for an element such as [foo:0:1]. *)
Definition errInvalidStream (trimmed : string) : error :=
  ErrOther ("stream '" +:+ trimmed +:+
            "' is invalid, only one shard should be specified and the same stream can be listed multiple times, e.g. use `foo:0,foo:1` not `foo:0:1`").

(** [k.streamShards] and [k.balancedStreams]. *)
Record streams : Type := mkStreams {
  streamShards : gmap string (list string);
  balancedStreams : list string
}.

Definition noStreams : streams := mkStreams ∅ [].

(** Not both kinds of stream at once. *)
Definition exclusive (k : streams) : Prop :=
  size (streamShards k) = 0%nat \/ balancedStreams k = [].

Section Streams.

(** [strings.TrimSpace], of the Go library. *)
Variable TrimSpace : string -> string.

(** The body of the inner loop of [newKinesisReaderFromConfig], for one
    comma-separated element. *)
Definition addStream (k : streams) (splitStreams : string) : error + streams :=
  let trimmed := TrimSpace splitStreams in
  if (0 <? String.length trimmed)%nat then
    let withShards := Split trimmed colon in
    if (1 <? length withShards)%nat then
      if (0 <? length (balancedStreams k))%nat then inl errCannotMixBalancedShards
      else if (2 <? length withShards)%nat then inl (errInvalidStream trimmed)
      else
        let stream := TrimSpace (nth 0 withShards "") in
        let shard := TrimSpace (nth 1 withShards "") in
        inr (mkStreams
               (<[stream := default [] (streamShards k !! stream) ++ [shard]]>
                  (streamShards k))
               (balancedStreams k))
    else
      if (0 <? size (streamShards k))%nat then inl errCannotMixBalancedShards
      else inr (mkStreams (streamShards k) (balancedStreams k ++ [trimmed]))
  else inr k.

(** [for _, splitStreams := range strings.Split(t, ",")]. *)
Fixpoint addStreams (k : streams) (elements : list string) : error + streams :=
  match elements with
  | [] => inr k
  | el :: rest =>
      match addStream k el with
      | inl e => inl e
      | inr k1 => addStreams k1 rest
      end
  end.

(** [for _, t := range conf.Streams]. *)
Fixpoint parseStreams (k : streams) (confStreams : list string) : error + streams :=
  match confStreams with
  | [] => inr k
  | t :: rest =>
      match addStreams k (Split t comma) with
      | inl e => inl e
      | inr k1 => parseStreams k1 rest
      end
  end.

End Streams.

(** *** [runExplicitShards] *)

(** What the outside world does during one pass over the explicit
    shards: the answers depend on the stream and the shard only, so a
    shard listed twice is answered alike both times within a pass. *)
Record explicit_env : Type := mkExplicit {
  xe_Claim : string -> string -> error + string;        (* Claim(stream, shard, "") *)
  xe_runConsumer : string -> string -> string -> option error;
  xe_ctxErr : bool                                      (* k.ctx.Err() != nil *)
}.

(** Claim the shard and start its consumer: the error, if either fails. *)
Definition startShard (env : explicit_env) (streamID shardID : string)
    : option error :=
  match xe_Claim env streamID shardID with
  | inl e => Some e
  | inr sequence => xe_runConsumer env streamID shardID sequence
  end.

(** [for _, shardID := range shards]: the failed shards, and whether the
    function returned. *)
Fixpoint startShards (env : explicit_env) (streamID : string)
    (shards failedShards : list string) : list string * bool :=
  match shards with
  | [] => (failedShards, false)
  | shardID :: rest =>
      match startShard env streamID shardID with
      | None => startShards env streamID rest failedShards
      | Some _ =>
          if xe_ctxErr env then (failedShards, true)
          else startShards env streamID rest (failedShards ++ [shardID])
      end
  end.

(** The body of [for streamID, shards := range k.streamShards]. *)
Definition explicitStream (env : explicit_env)
    (acc : gmap string (list string) * bool) (entry : string * list string)
    : gmap string (list string) * bool :=
  if snd acc then acc
  else
    let '(failedShards, returned) := startShards env (fst entry) (snd entry) [] in
    if returned then (fst acc, true)
    else if (0 <? length failedShards)%nat
         then (<[fst entry := failedShards]> (fst acc), false)
         else (delete (fst entry) (fst acc), false).

(** One pass over the map: the map afterwards, and whether the function
    returned.  Go visits the keys in an unspecified order; [map_to_list]
    fixes one. *)
Definition explicitPass (env : explicit_env) (m : gmap string (list string))
    : gmap string (list string) * bool :=
  foldl (explicitStream env) (m, false) (map_to_list m).

Inductive explicit_result : Type :=
| AllStarted                                    (* break: the map is empty *)
| Cancelled (m : gmap string (list string))     (* return on a done context *)
| Retrying (m : gmap string (list string)).     (* the environment ended first *)

(** The outer loop, one environment per pass. *)
Fixpoint runExplicitShards (envs : list explicit_env)
    (m : gmap string (list string)) : explicit_result :=
  match envs with
  | [] => Retrying m
  | env :: rest =>
      let '(m1, returned) := explicitPass env m in
      if returned then Cancelled m1
      else if (size m1 =? 0)%nat then AllStarted
      else runExplicitShards rest m1
  end.

(** The shards of a stream that fail to start in a pass. *)
Definition failing (env : explicit_env) (streamID : string)
    (shards : list string) : list string :=
  filter (fun shardID => is_Some (startShard env streamID shardID)) shards.

Definition retrySet (env : explicit_env) (streamID : string)
    (shards : list string) : option (list string) :=
  match failing env streamID shards with
  | [] => None
  | f => Some f
  end.

(** *** Concrete instances *)

(** Trimming of blanks, enough for elements written with spaces. *)
Fixpoint trimLeft (s : string) : string :=
  match s with
  | String c rest => if Ascii.eqb c (Ascii.ascii_of_nat 32) then trimLeft rest else s
  | EmptyString => EmptyString
  end.

Definition demoTrim (s : string) : string :=
  String.rev (trimLeft (String.rev (trimLeft s))).

(** A checkpoint table in which shard "1" of stream "foo" is leased to
    another client, and one in which every shard can be claimed. *)
Definition oneShardLeased : explicit_env :=
  mkExplicit (fun stream shard =>
                if String.eqb shard "1" then inl ErrLeaseNotAcquired else inr "100")
             (fun _ _ _ => None) false.

Definition allShardsFree : explicit_env :=
  mkExplicit (fun _ _ => inr "100") (fun _ _ _ => None) false.

End KinesisSetup.

(** ** More of the Kinesis consumer and of rebalancing *)

Module KinesisMore.

Import Kinesis.

(** Is the action a call of the Kinesis service? *)
Definition isServiceCall {M : Type} (a : action M) : bool :=
  match a with
  | SvcGetRecords _ | SvcGetIter _ _ _ => true
  | _ => false
  end.

(** The batcher after the records have been added to it in order. *)
Definition addAll {B R M : Type} `{RecordBatcher B R M} (b : B) (recs : list R) : B :=
  foldl (fun b r => fst (AddRecord r b)) b recs.

(** The request [getIter] makes first. *)
Definition firstRequest (StartFromOldest : bool) (streamID shardID sequence : string)
    : GetShardIteratorInput :=
  if (0 <? String.length sequence)%nat
  then mkIterInput streamID shardID (Some sequence) ShardIteratorTypeAfterSequenceNumber
  else mkIterInput streamID shardID None
         (if StartFromOldest then ShardIteratorTypeTrimHorizon
          else ShardIteratorTypeLatest).

(** The request it falls back to. *)
Definition fallbackRequest (streamID shardID : string) : GetShardIteratorInput :=
  mkIterInput streamID shardID None ShardIteratorTypeTrimHorizon.

(** Is the lease of the claim still honoured at [now]? *)
Definition leaseLive (leasePeriod now : Z) (c : awsKinesisClientClaim) : Prop :=
  (wrap64 (leasePeriod * 2) <? Since now (LeaseTimeout c))%Z = false.

(** The body of the loop over the claims of one client, in
    [runBalancedShards]. *)
Definition claimStep (leasePeriod now : Z) (owner : string)
    (m : gmap string string) (claim : awsKinesisClientClaim) : gmap string string :=
  if (wrap64 (leasePeriod * 2) <? Since now (LeaseTimeout claim))%Z
  then <[ShardID claim := owner]> m
  else delete (ShardID claim) m.


(** A consumer whose shard has ended with one message still to hand
    over, and an environment that would have more records for it. *)
Definition demoFinished : consumer (list string * string) string (list string) :=
  mkConsumer ([], "101") [] "" awsKinesisConsumerFinished
    (Some ["101"]) unblockedChan None 0 [].

Definition demoAfterEnd : list (iter_env string) :=
  [mkEnv (inr (["102"], Some "iter-9")) demoIterators SelCommitDone false (inr true);
   mkEnv (inr (["103"], Some "iter-9")) demoIterators SelPull false (inr true)].

Definition freshReader : kinesisReader :=
  mkReader None None None false "session" [].

End KinesisMore.

(** ** The NATS key-value output and input: Write, Read, reconnection *)

Module NatsMore.

Import Nats.

(** What a Write meets: [msg.AsBytes()], the interpolation of the key,
    and [keyValue.Put] with the revision it returns. *)
Record write_env : Type := mkWriteEnv {
  we_AsBytes : error + string;
  we_key : error + string;
  we_Put : error + nat
}.

(** [kvOutput.Write]: the error, and the pairs put into the bucket. *)
Definition kvWrite (env : write_env) (kv : kvOutput)
    : option error * list (string * string) :=
  match kv_keyValue kv with
  | None => (Some ErrNotConnected, [])
  | Some _ =>
      match we_AsBytes env with
      | inl e => (Some e, [])
      | inr value =>
          match we_key env with
          | inl e => (Some e, [])
          | inr key =>
              match we_Put env with
              | inl e => (Some e, [(key, value)])
              | inr _ => (None, [(key, value)])
              end
          end
      end
  end.

(** The calls that change the connection of an output. *)
Inductive connOp : Type :=
| OpConnect (env : connect_env)
| OpDisconnect.

Definition kvStep (kv : kvOutput) (op : connOp) : kvOutput :=
  match op with
  | OpConnect env => fst (kvConnect env kv)
  | OpDisconnect => kvDisconnect kv
  end.

Definition jsStep (j : jetStreamOutput) (op : connOp) : jetStreamOutput :=
  match op with
  | OpConnect env => fst (jsConnect env j)
  | OpDisconnect => jsDisconnect j
  end.

(** The outputs as their constructors leave them. *)
Definition newKV : kvOutput := mkKV "bucket" "${! key }" None None [] [].
Definition newJS : jetStreamOutput := mkJS "subject" None None [] [].

(** *** The key-value input *)

(** [kvReader]: the connection and the watcher, with what has been
    closed and stopped so far. *)
Record kvReader : Type := mkKVR {
  r_bucket : string;
  r_key : string;
  r_natsConn : option nat;
  r_watcher : option nat;
  r_log : list string;
  r_closed : list nat;
  r_stopped : list nat
}.

Record reader_env : Type := mkReaderEnv {
  re_Connect : error + nat;          (* nats.Connect *)
  re_JetStream : error + nat;        (* r.natsConn.JetStream() *)
  re_KeyValue : error + nat;         (* js.KeyValue(bucket) *)
  re_Watch : error + nat             (* kv.Watch(key, ...) *)
}.

Definition optList {A : Type} (o : option A) : list A :=
  match o with Some x => [x] | None => [] end.

(** The deferred function of Connect when it returns an error: the
    watcher is stopped and the connection closed, and both fields are
    left as they are. *)
Definition connectFailed (r : kvReader) : kvReader :=
  mkKVR (r_bucket r) (r_key r) (r_natsConn r) (r_watcher r) (r_log r)
    (r_closed r ++ optList (r_natsConn r))
    (r_stopped r ++ optList (r_watcher r)).

(** [kvReader.Connect]: the connection is assigned to the field as soon
    as it is dialed. *)
Definition kvrConnect (env : reader_env) (r : kvReader) : kvReader * option error :=
  match r_natsConn r with
  | Some _ => (r, None)
  | None =>
      match re_Connect env with
      | inl e => (connectFailed r, Some e)
      | inr natsConn =>
          let r1 := mkKVR (r_bucket r) (r_key r) (Some natsConn) (r_watcher r)
                      (r_log r) (r_closed r) (r_stopped r) in
          match re_JetStream env with
          | inl e => (connectFailed r1, Some e)
          | inr _ =>
              match re_KeyValue env with
              | inl e => (connectFailed r1, Some e)
              | inr _ =>
                  match re_Watch env with
                  | inl e =>
                      (connectFailed
                         (mkKVR (r_bucket r) (r_key r) (Some natsConn) None
                            (r_log r) (r_closed r) (r_stopped r)), Some e)
                  | inr watcher =>
                      (mkKVR (r_bucket r) (r_key r) (Some natsConn) (Some watcher)
                         (r_log r ++ ["Watching NATS KV bucket: " +:+ r_bucket r
                                      +:+ " for key(s): " +:+ r_key r])
                         (r_closed r) (r_stopped r), None)
                  end
              end
          end
      end
  end.

(** [kvReader.disconnect]. *)
Definition kvrDisconnect (r : kvReader) : kvReader :=
  mkKVR (r_bucket r) (r_key r) None None (r_log r)
    (r_closed r ++ optList (r_natsConn r))
    (r_stopped r ++ optList (r_watcher r)).

(** What the select of Read receives: an entry of the updates channel
    (which may be nil), the channel closed, or the context done. *)
Inductive readEvent (E : Type) : Type :=
| Update (entry : option E)
| UpdatesClosed
| ReadCtxDone (err : error).

Arguments Update {E}.
Arguments UpdatesClosed {E}.
Arguments ReadCtxDone {E}.

Inductive readResult (E : Type) : Type :=
| Message (entry : E)
| ReadError (err : error)
| ReadWaiting.                       (* the environment ended first *)

Arguments Message {E}.
Arguments ReadError {E}.
Arguments ReadWaiting {E}.

(** The loop of Read. *)
Fixpoint readLoop {E : Type} (events : list (readEvent E)) (r : kvReader)
    : readResult E * kvReader :=
  match events with
  | [] => (ReadWaiting, r)
  | Update None :: rest => readLoop rest r
  | Update (Some entry) :: _ => (Message entry, r)
  | UpdatesClosed :: _ => (ReadError ErrNotConnected, kvrDisconnect r)
  | ReadCtxDone err :: _ => (ReadError err, r)
  end.

(** [kvReader.Read]. *)
Definition kvrRead {E : Type} (events : list (readEvent E)) (r : kvReader)
    : readResult E * kvReader :=
  match r_watcher r with
  | None => (ReadError ErrNotConnected, r)
  | Some _ => readLoop events r
  end.

Definition newKVR : kvReader := mkKVR "bucket" ">" None None [] [] [].

End NatsMore.

(** ** The Cloud Storage input: the list of objects to read *)

Module GCS.

Definition maxGCPCloudStorageListObjectsResults : nat := 100.

(** [io.EOF]. *)
Definition ioEOF : error := ErrOther "EOF".

(** A [storage.ObjectIterator]: the answers its calls of [Next] will
    give, in order, and [iterator.Done] once they are used up. *)
Definition ObjectIterator : Type := list (error + string).

(** [gcpCloudStorageObjectTarget]: the key, and the ack function, which
    [deleteGCPCloudStorageObjectAckFn] makes from the delete flag. *)
Record gcpCloudStorageObjectTarget : Type := mkTarget {
  key : string;
  deleteOnAck : bool
}.

(** [gcpCloudStorageTargetReader]. *)
Record gcpCloudStorageTargetReader : Type := mkTargetReader {
  pending : list gcpCloudStorageObjectTarget;
  DeleteObjects : bool;
  startAfter : option ObjectIterator
}.

Definition errFailedToList (e : error) : error :=
  ErrOther ("failed to list objects: " +:+ Error e).

(** [for count := 0; count < max; count++ { obj, err := it.Next() ... }]:
    the error if one ended the loop, the targets appended, and the
    iterator afterwards. *)
Fixpoint listObjects (count : nat) (it : ObjectIterator) (del : bool)
    (acc : list gcpCloudStorageObjectTarget)
    : option error * list gcpCloudStorageObjectTarget * ObjectIterator :=
  match count with
  | O => (None, acc, it)
  | S count' =>
      match it with
      | [] => (None, acc, [])
      | inl e :: it' => (Some (errFailedToList e), acc, it')
      | inr name :: it' => listObjects count' it' del (acc ++ [mkTarget name del])
      end
  end.

(** [newGCPCloudStorageTargetReader]. *)
Definition newGCPCloudStorageTargetReader (it : ObjectIterator) (del : bool)
    : error + gcpCloudStorageTargetReader :=
  match listObjects maxGCPCloudStorageListObjectsResults it del [] with
  | (Some e, _, _) => inl e
  | (None, pend, it') =>
      inr (mkTargetReader pend del
             (if (0 <? length pend)%nat then Some it' else None))
  end.

(** [Pop]. *)
Definition Pop (r : gcpCloudStorageTargetReader)
    : (error + gcpCloudStorageObjectTarget) * gcpCloudStorageTargetReader :=
  let refilled :=
    match pending r, startAfter r with
    | [], Some it =>
        let '(e, pend, it') :=
          listObjects maxGCPCloudStorageListObjectsResults it (DeleteObjects r) [] in
        (e, mkTargetReader pend (DeleteObjects r) (Some it'))
    | _, _ => (None, r)
    end in
  match refilled with
  | (Some e, r1) => (inl e, r1)
  | (None, r1) =>
      match pending r1 with
      | [] => (inl ioEOF, r1)
      | obj :: rest =>
          (inr obj, mkTargetReader rest (DeleteObjects r1) (startAfter r1))
      end
  end.

(** The ack function of a target, called with the result of the
    transaction and with what [Delete] would answer: the error returned,
    and whether the object was deleted. *)
Definition ackFn (t : gcpCloudStorageObjectTarget) (res deleteRes : option error)
    : option error * bool :=
  if negb (deleteOnAck t) || bool_decide (is_Some res) then (None, false)
  else (deleteRes, true).

(** Pop until an error, at most [fuel] times: the keys popped. *)
Fixpoint drain (fuel : nat) (r : gcpCloudStorageTargetReader) : list string :=
  match fuel with
  | O => []
  | S fuel' =>
      match Pop r with
      | (inr t, r') => key t :: drain fuel' r'
      | (inl _, _) => []
      end
  end.

(** The reader after [n] calls of Pop. *)
Fixpoint pops (n : nat) (r : gcpCloudStorageTargetReader)
    : gcpCloudStorageTargetReader :=
  match n with
  | O => r
  | S n' => pops n' (snd (Pop r))
  end.

(** The reader holds a listing without errors, or none. *)
Definition cleanListing (r : gcpCloudStorageTargetReader) : Prop :=
  Forall (fun t => deleteOnAck t = DeleteObjects r) (pending r) /\
  match startAfter r with
  | Some it => exists rest : list string, it = map inr rest
  | None => True
  end.

(** The keys the reader has yet to hand out, when the listing has no
    errors. *)
Fixpoint names (it : ObjectIterator) : list string :=
  match it with
  | [] => []
  | inr n :: rest => n :: names rest
  | inl _ :: rest => names rest
  end.

Definition contents (r : gcpCloudStorageTargetReader) : list string :=
  map key (pending r) ++ match startAfter r with
                         | Some it => names it
                         | None => []
                         end.

End GCS.

(** * Properties *)

(** ** The SQS writer's retry loop *)

Module SQSFacts.

Import SQS.

Section Loop.

Context {message : Type}.
Variable getSQSAttributes : list message -> nat -> error + sqsAttributes.


(** The loop only stops short with entries still to send. *)
Lemma loop_running_nonempty (am : gmap string sqsAttributes)
    (envs : list iter_env) (s s' : loop_state) :
  loop am envs s = Running s' -> inputEntries s' <> [].
Proof.
  revert s. induction envs as [|ev envs IH]; intros s; simpl.
  - destruct (inputEntries s) eqn:E; [discriminate|].
    intros [= <-]. rewrite E. discriminate.
  - destruct (inputEntries s); [discriminate|].
    destruct (iteration am ev s); [apply IH|discriminate].
Qed.


End Loop.


(** An iteration whose send fails for good when the backoff has run out
    returns the error of the send, whatever the context. *)
Lemma iteration_stop_returns_send_error (am : gmap string sqsAttributes)
    (ev : iter_env) (s : loop_state) (e : error) :
  send ev = inl e -> wait ev = None ->
  iteration am ev s = inr (Some e).
Proof. intros Hs Hw. unfold iteration. rewrite Hs, Hw. reflexivity. Qed.

(** A writer that Close has signalled returns the error of the send. *)
Lemma iteration_closed_returns_send_error (am : gmap string sqsAttributes)
    (ev : iter_env) (s : loop_state) (e : error) (d : Z) :
  send ev = inl e -> wait ev = Some d ->
  closed ev = true -> ctxDone ev = false -> timerFired ev = false ->
  iteration am ev s = inr (Some e).
Proof.
  intros Hs Hw Hc Hx Ht. unfold iteration, select_wait, ready.
  rewrite Hs, Hw, Hc, Hx, Ht. cbn [app length]. rewrite Nat.mod_1_r.
  reflexivity.
Qed.




End SQSFacts.

(** ** Rebalancing: when a shard is stolen *)

Module RebalanceFacts.

Import Kinesis.

Section Steal.

Variable clientID : string.
Variable leasePeriod : Z.
Variable env : pass_env.

(** Grabbing unclaimed shards never steals. *)
Lemma grab_no_steal (unclaimed : list (string * string))
    (victim shard : string) :
  ~ In (StealAttempt victim shard) (fst (grab env unclaimed)).
Proof.
  induction unclaimed as [|[s from] rest IH]; simpl; [tauto|].
  destruct (pe_Claim env s from) as [e|sq].
  - destruct (pe_ctxErr env); simpl.
    + intros [Heq|[]]. discriminate.
    + destruct (grab env rest) as [tr e']. simpl in *.
      intros [Heq|Hin]; [discriminate|tauto].
  - destruct (grab env rest) as [tr e']. simpl in *.
    intros [Heq|[Heq|Hin]]; [discriminate|discriminate|tauto].
Qed.

(** The shard picked from a client's claims is one of those claims. *)
Lemma randomShard_elem (r : nat) (claims : list awsKinesisClientClaim) :
  claims <> [] ->
  exists c, c ∈ claims /\ ShardID c = randomShard r claims.
Proof.
  intros Hne. unfold randomShard.
  assert (Hlt : (r mod length claims < length claims)%nat).
  { apply Nat.mod_upper_bound. destruct claims; simpl; [congruence|lia]. }
  destruct (lookup_lt_is_Some_2 claims _ Hlt) as [c Hc].
  rewrite Hc. exists c. split; [|reflexivity].
  apply list_elem_of_lookup. eauto.
Qed.

(** Every steal the loop attempts is from another client that holds at
    least two shards more than this instance, and it is for the shard at
    the random index. *)
Lemma steal_attempts (selfClaims : nat)
    (clientClaims : list (string * list awsKinesisClientClaim))
    (victim shard : string) :
  In (StealAttempt victim shard) (fst (steal clientID env selfClaims clientClaims)) ->
  exists claims,
    In (victim, claims) clientClaims /\
    victim <> clientID /\
    (selfClaims + 2 <= length claims)%nat /\
    shard = randomShard (pe_rand env victim) claims.
Proof.
  induction clientClaims as [|[client claims] rest IH]; simpl; [tauto|].
  assert (Hrest : In (StealAttempt victim shard)
                     (fst (steal clientID env selfClaims rest)) ->
                  exists claims0,
                    ((client, claims) = (victim, claims0) \/ In (victim, claims0) rest) /\
                    victim <> clientID /\
                    (selfClaims + 2 <= length claims0)%nat /\
                    shard = randomShard (pe_rand env victim) claims0).
  { intros Hin. destruct (IH Hin) as (cl & H1 & H2 & H3 & H4).
    exists cl. tauto. }
  destruct (String.eqb client clientID) eqn:Eself; [exact Hrest|].
  destruct (selfClaims + 1 <? length claims)%nat eqn:Emore; [|exact Hrest].
  apply String.eqb_neq in Eself. apply Nat.ltb_lt in Emore.
  assert (Hhere : StealAttempt client (randomShard (pe_rand env client) claims)
                  = StealAttempt victim shard ->
                  exists claims0,
                    ((client, claims) = (victim, claims0) \/ In (victim, claims0) rest) /\
                    victim <> clientID /\
                    (selfClaims + 2 <= length claims0)%nat /\
                    shard = randomShard (pe_rand env victim) claims0).
  { intros [= -> <-]. exists claims. repeat split; auto; lia. }
  destruct (pe_Claim env _ client) as [e|sq].
  - destruct (pe_ctxErr env); simpl.
    + intros [Heq|[]]. auto.
    + destruct (steal clientID env selfClaims rest) as [tr e']. simpl in *.
      intros [Heq|Hin]; auto.
  - destruct (pe_runConsumer env _ sq).
    + destruct (steal clientID env selfClaims rest) as [tr e']. simpl in *.
      intros [Heq|[Heq|Hin]]; auto. discriminate.
    + simpl. intros [Heq|[Heq|[]]]; auto. discriminate.
Qed.

End Steal.

(** C1, as amended: in a rebalance pass, the instance attempts to steal a
    shard only when no unclaimed shards were found, only from another
    observed client, and only if the instance holds strictly fewer shards
    than that client's holdings minus one (the other client holds at
    least two shards more); the shard it attempts to claim is the one at
    a random index of that client's claims. *)
Theorem steal_only_from_client_two_ahead (clientID : string) (leasePeriod : Z)
    (env : pass_env) (tr : list pass_action) (e : pass_end) (found : bool)
    (victim shard : string) :
  rebalanceStream clientID leasePeriod env = (tr, e, found) ->
  In (StealAttempt victim shard) tr ->
  found = false /\
  exists clientClaims claims,
    pe_AllClaims env = inr clientClaims /\
    In (victim, claims) clientClaims /\
    victim <> clientID /\
    (Z.of_nat (length (claimsOf clientID clientClaims))
       < Z.of_nat (length claims) - 1)%Z /\
    shard = randomShard (pe_rand env victim) claims /\
    exists c, c ∈ claims /\ ShardID c = shard.
Proof.
  unfold rebalanceStream. intros Hpass Hin.
  destruct (pe_ListShards env) as [e1|shards].
  { injection Hpass as <- _ _. destruct Hin. }
  destruct (pe_AllClaims env) as [e1|clientClaims].
  { injection Hpass as <- _ _. destruct Hin. }
  destruct (0 <? size (unclaimedOf leasePeriod (pe_now env) shards clientClaims))%nat.
  - exfalso.
    pose proof (grab_no_steal env (map_to_list
                  (unclaimedOf leasePeriod (pe_now env) shards clientClaims))
                  victim shard) as Hno.
    revert Hpass Hno. destruct (grab env _) as [tr' e']. simpl.
    intros [= <- _ _] Hno. exact (Hno Hin).
  - pose proof (steal_attempts clientID env
                  (length (claimsOf clientID clientClaims)) clientClaims
                  victim shard) as Hst.
    revert Hpass Hst. destruct (steal clientID env _ clientClaims) as [tr' e'].
    simpl. intros [= <- _ <-] Hst. split; [reflexivity|].
    destruct (Hst Hin) as (claims & Hmem & Hne & Hlen & Hshard).
    exists clientClaims, claims. repeat split; auto; [lia|].
    subst shard. apply randomShard_elem. destruct claims; simpl in *; [lia|congruence].
Qed.

Lemma steal_only_from_client_two_ahead_witness :
  In (StealAttempt "other" "shard-1")
     [StealAttempt "other" "shard-1"] /\
  exists clientClaims claims,
    pe_AllClaims twoShardsHeldByOther = inr clientClaims /\
    In ("other", claims) clientClaims /\
    "other" <> "me" /\
    (Z.of_nat (length (claimsOf "me" clientClaims))
       < Z.of_nat (length claims) - 1)%Z /\
    "shard-1" = randomShard (pe_rand twoShardsHeldByOther "other") claims /\
    exists c, c ∈ claims /\ ShardID c = "shard-1".
Proof.
  split; [left; reflexivity|].
  apply (steal_only_from_client_two_ahead "me" 30000 twoShardsHeldByOther
           [StealAttempt "other" "shard-1"] NextStream false "other" "shard-1").
  - vm_compute. reflexivity.
  - left. reflexivity.
Defined.

(** C1, as stated, fails: an instance holding no shard attempts to steal
    from a client holding two, although zero is not strictly less than
    two minus two. *)
Lemma steal_at_two_ahead_counterexample :
  ~ (forall (clientID : string) (leasePeriod : Z) (env : pass_env)
            (tr : list pass_action) (e : pass_end)
            (clientClaims : list (string * list awsKinesisClientClaim))
            (victim shard : string) (claims : list awsKinesisClientClaim),
        rebalanceStream clientID leasePeriod env = (tr, e, false) ->
        pe_AllClaims env = inr clientClaims ->
        In (victim, claims) clientClaims ->
        In (StealAttempt victim shard) tr ->
        (Z.of_nat (length (claimsOf clientID clientClaims))
           < Z.of_nat (length claims) - 2)%Z).
Proof.
  intros H.
  specialize (H "me" 30000%Z twoShardsHeldByOther
                [StealAttempt "other" "shard-1"] NextStream
                [("other", [mkClaim "shard-0" 1000; mkClaim "shard-1" 1000])]
                "other" "shard-1"
                [mkClaim "shard-0" 1000; mkClaim "shard-1" 1000]).
  assert (Hpass : rebalanceStream "me" 30000 twoShardsHeldByOther
                  = ([StealAttempt "other" "shard-1"], NextStream, false))
    by (vm_compute; reflexivity).
  specialize (H Hpass eq_refl (or_introl eq_refl) (or_introl eq_refl)).
  vm_compute in H. discriminate H.
Qed.

End RebalanceFacts.

(** ** The per-shard consumer *)

Module ConsumerFacts.

Import Kinesis.

(** An iterator that getIter returns is never the empty string. *)
Lemma getIter_nonempty (sfo : bool) (svc : shardIteratorAPI)
    (streamID shardID sequence it : string) :
  getIter sfo svc streamID shardID sequence = inr it -> it <> "".
Proof.
  unfold getIter.
  destruct (svc _) as [e|res]; [discriminate|].
  destruct (String.eqb (default "" res) "") eqn:E1.
  - destruct (svc _) as [e|res2]; [discriminate|].
    destruct (String.eqb (default "" res2) "") eqn:E2; [discriminate|].
    intros [= <-]. apply String.eqb_neq, E2.
  - intros [= <-]. apply String.eqb_neq, E1.
Qed.

(** With a sequence in hand the request is for the position after it, and
    a non-empty answer to that request is the iterator returned. *)
Lemma getIter_after_sequence (sfo : bool) (svc : shardIteratorAPI)
    (streamID shardID sequence it : string) :
  sequence <> "" -> it <> "" ->
  svc (mkIterInput streamID shardID (Some sequence)
         ShardIteratorTypeAfterSequenceNumber) = inr (Some it) ->
  getIter sfo svc streamID shardID sequence = inr it.
Proof.
  intros Hseq Hit Hsvc. unfold getIter.
  assert (Hlen : (0 <? String.length sequence)%nat = true).
  { destruct sequence; [congruence|reflexivity]. }
  rewrite Hlen, Hsvc. simpl.
  apply String.eqb_neq in Hit. rewrite Hit. reflexivity.
Qed.

Section Loop.

Context {B R M : Type} `{RecordBatcher B R M}.
Variable k : readerConf.
Variables streamID shardID : string.

Abbreviation consumer := (consumer B R M).
Abbreviation Inv := (@consumerInv B R M).

(** The pull keeps the invariant: a spent iterator finishes the
    consumer, anything else leaves it consuming. *)
Lemma pull_section_inv (ev : iter_env R) (c : consumer) :
  Inv c -> Inv (pull_section k streamID shardID ev c).
Proof.
  unfold consumerInv, pull_section. intros HI.
  destruct (isConsuming (state c) && isNil (pending c)
            && isUnblocked (nextPullChan c)) eqn:Econd; [|exact HI].
  apply andb_prop in Econd as [Econd _]. apply andb_prop in Econd as [Ecs _].
  unfold isConsuming in Ecs. apply bool_decide_eq_true in Ecs.
  destruct (getRecords (ev_getRecords ev) (iter c)) as [[recs it] e].
  match goal with
  | |- context [String.eqb (iter ?c1) ""] =>
      assert (Hst : state c1 = awsKinesisConsumerConsuming);
      [| destruct (String.eqb (iter c1) "") eqn:Eit ]
  end.
  - destruct e as [e|].
    + destruct (negb (awsErrIsTimeout e)); [|exact Ecs].
      destruct (isExpiredIterator e); [|exact Ecs].
      destruct (getIter _ _ _ _ _); exact Ecs.
    + destruct (isNil recs); exact Ecs.
  - right. simpl. split; [reflexivity|]. apply String.eqb_eq, Eit.
  - left. split; [exact Hst|]. apply String.eqb_neq, Eit.
Qed.

(** Preparing the next message touches neither the state nor the
    iterator; it returns only from a finished consumer with nothing
    pending and nothing to flush. *)
Lemma flush_section_keeps (c : consumer) :
  match flush_section c with
  | inl c1 => state c1 = state c /\ iter c1 = iter c
  | inr c1 => state c1 = state c /\ iter c1 = iter c /\
              state c = awsKinesisConsumerFinished /\
              pending c1 = [] /\ pendingMsg c1 = None
  end.
Proof.
  unfold flush_section.
  destruct (pendingMsg c) eqn:Emsg; [tauto|].
  destruct (isNil (pending c) && isFinished (state c)) eqn:Efin.
  - apply andb_prop in Efin as [Enil Efin].
    unfold isFinished in Efin. apply bool_decide_eq_true in Efin.
    destruct (FlushMessage ReaderCtx (recordBatcher c)) as [[b1 m] e].
    destruct m; simpl; [tauto|].
    repeat split; auto. destruct (pending c); [reflexivity|discriminate].
  - destruct (HasPendingMessage (recordBatcher c)).
    + destruct (FlushMessage CommitCtx (recordBatcher c)) as [[b1 m] e].
      simpl. tauto.
    + destruct (negb (isNil (pending c))).
      * destruct (addRecords (recordBatcher c) (pending c)) as [[b1 m] rest].
        simpl. tauto.
      * simpl. tauto.
Qed.

Lemma arm_timed_batch_keeps (c : consumer) :
  state (arm_timed_batch c) = state c /\
  iter (arm_timed_batch c) = iter c /\
  recordBatcher (arm_timed_batch c) = recordBatcher c.
Proof. unfold arm_timed_batch. destruct (nextTimedBatchChan c); simpl; tauto. Qed.

(** The select returns only on a cancelled context, which closes the
    consumer, or on a commit that found the shard owned by another
    client, which makes it yield. *)
Lemma select_section_cases (ev : iter_env R) (c : consumer) :
  match select_section streamID shardID ev c with
  | inl c1 => state c1 = state c /\ iter c1 = iter c
  | inr c1 =>
      (state c1 = awsKinesisConsumerYielding /\
         ev_checkpoint ev = inr false /\ ev_ctxDone ev = false) \/
      (state c1 = awsKinesisConsumerClosing /\ ev_ctxDone ev = true)
  end.
Proof.
  unfold select_section, chosen.
  destruct (enabled ev c (ev_select ev)) eqn:Een.
  - destruct (ev_select ev); simpl in *; try tauto;
      destruct (ev_ctxDone ev) eqn:Ectx; simpl; try tauto;
      destruct (ev_checkpoint ev) as [e|[|]]; simpl; tauto.
  - destruct (ev_ctxDone ev) eqn:Ectx; simpl; [tauto|].
    destruct (ev_checkpoint ev) as [e|[|]]; simpl; tauto.
Qed.

(** One turn of the loop keeps the invariant when it goes round, and
    returns for one of the three causes. *)
Lemma iteration_cases (ev : iter_env R) (c : consumer) :
  Inv c ->
  match Kinesis.iteration k streamID shardID ev c with
  | inl c1 => Inv c1
  | inr c1 => exitCause ev c1
  end.
Proof.
  intros HI. unfold Kinesis.iteration.
  pose proof (pull_section_inv ev c HI) as HI1.
  pose proof (flush_section_keeps (pull_section k streamID shardID ev c)) as Hf.
  destruct (flush_section (pull_section k streamID shardID ev c)) as [c1|c1].
  - destruct Hf as [Hs Hi].
    pose proof (arm_timed_batch_keeps c1) as (Has & Hai & _).
    pose proof (select_section_cases ev (arm_timed_batch c1)) as Hsel.
    destruct (select_section streamID shardID ev (arm_timed_batch c1)) as [c2|c2].
    + destruct Hsel as [Hs2 Hi2]. unfold consumerInv in *.
      rewrite Hs2, Hi2, Has, Hai, Hs, Hi. exact HI1.
    + unfold exitCause. tauto.
  - destruct Hf as (Hs & Hi & Hfin & Hp & Hm).
    unfold exitCause. left. unfold consumerInv in HI1.
    rewrite Hs, Hi. repeat split; auto.
    destruct HI1 as [[Hc _]|[_ Hit]]; [congruence|exact Hit].
Qed.

(** A goroutine that exits did so on its last turn, for one of the three
    causes, and then ran the deferred function. *)
Lemma goroutine_exit (envs : list (iter_env R)) (c0 c1 cf : consumer) :
  Inv c0 ->
  goroutine k streamID shardID envs c0 = Exited c1 cf ->
  cf = deferred streamID shardID c1 /\
  exists pre ev post, envs = pre ++ ev :: post /\ exitCause ev c1.
Proof.
  revert c0. induction envs as [|ev envs IH]; intros c0 HI; simpl; [discriminate|].
  pose proof (iteration_cases ev c0 HI) as Hit.
  destruct (Kinesis.iteration k streamID shardID ev c0) as [c'|c'].
  - intros Hrun. destruct (IH c' Hit Hrun) as (Hcf & pre & ev' & post & -> & Hcause).
    split; [exact Hcf|]. exists (ev :: pre), ev', post. split; [reflexivity|exact Hcause].
  - intros [= <- <-]. split; [reflexivity|].
    exists [], ev, envs. split; [reflexivity|exact Hit].
Qed.

(** The consumer that runConsumer hands to the goroutine. *)
Lemma runConsumer_inv (svc : shardIteratorAPI) (startingSequence : string)
    (c0 : consumer) :
  runConsumer k streamID shardID svc startingSequence = inr c0 -> Inv c0.
Proof.
  unfold runConsumer.
  destruct (NewBatcher streamID shardID startingSequence); [discriminate|].
  destruct (getIter _ _ _ _ _) as [e|it] eqn:Eit; [discriminate|].
  intros [= <-]. left. simpl. split; [reflexivity|].
  exact (getIter_nonempty _ _ _ _ _ _ Eit).
Qed.

(** The calls on the checkpointer among those of the deferred function. *)
Lemma deferred_checkpoint_actions (c : consumer) :
  trace (deferred streamID shardID c)
  = trace c ++ exitActions streamID shardID (deferred streamID shardID c) /\
  filter (fun a => isCheckpointAction a = true)
         (exitActions streamID shardID (deferred streamID shardID c))
  = exitCheckpoint streamID shardID (state c)
      (GetSequence (recordBatcher (deferred streamID shardID c))) /\
  state (deferred streamID shardID c) = state c.
Proof.
  unfold deferred, exitActions, exitCheckpoint. simpl.
  destruct (state c); simpl; repeat split; reflexivity.
Qed.

End Loop.

(** C2: a consumer goroutine that exits is in the Finished, the Yielding
    or the Closing state, never in another one; the calls it then makes
    on the checkpointer are exactly the one of that state: Delete when
    finished (the iterator is spent and nothing is left to flush), Yield
    when yielding (the last commit found another owner), a final
    Checkpoint when closing (the context was cancelled). *)
Theorem goroutine_exit_action {B R M : Type} `{RecordBatcher B R M}
    (k : readerConf) (streamID shardID : string)
    (svc : shardIteratorAPI) (startingSequence : string)
    (envs : list (iter_env R)) (c0 c1 cf : consumer B R M) :
  runConsumer k streamID shardID svc startingSequence = inr c0 ->
  goroutine k streamID shardID envs c0 = Exited c1 cf ->
  exists (acts : list (action M)) (ev : iter_env R),
    In ev envs /\
    trace cf = trace c1 ++ acts /\
    filter (fun a => isCheckpointAction a = true) acts
    = exitCheckpoint streamID shardID (state c1) (GetSequence (recordBatcher cf)) /\
    state c1 <> awsKinesisConsumerConsuming /\
    exitCause ev c1.
Proof.
  intros Hinit Hrun.
  pose proof (runConsumer_inv k streamID shardID svc startingSequence c0 Hinit) as HI.
  destruct (goroutine_exit k streamID shardID envs c0 c1 cf HI Hrun)
    as (-> & pre & ev & post & -> & Hcause).
  destruct (deferred_checkpoint_actions streamID shardID c1) as (Htr & Hck & _).
  exists (exitActions streamID shardID (deferred streamID shardID c1)), ev.
  split; [apply in_or_app; right; left; reflexivity|].
  split; [exact Htr|]. split; [exact Hck|]. split; [|exact Hcause].
  destruct Hcause as [(Hs & _)|[(Hs & _)|(Hs & _)]]; rewrite Hs; discriminate.
Qed.

Lemma goroutine_exit_action_witness :
  exists (c1 cf : consumer (list string * string) string (list string)) acts ev,
    In ev demoEnd /\
    trace cf = trace c1 ++ acts /\
    filter (fun a => isCheckpointAction a = true) acts
    = exitCheckpoint "stream" "shard-0" (state c1) (GetSequence (recordBatcher cf)) /\
    state c1 <> awsKinesisConsumerConsuming /\
    exitCause ev c1.
Proof.
  eexists. eexists.
  eapply (goroutine_exit_action demoConf "stream" "shard-0" demoIterators "100"
            demoEnd); reflexivity.
Defined.

(** The three exits, run: the finished consumer deletes the checkpoint
    row, the one that lost its claim yields at the sequence it reached,
    the closed one stores a final checkpoint. *)
Example run_to_shard_end :
  match runConsumer demoConf "stream" "shard-0" demoIterators "100" with
  | inr c0 =>
      match goroutine demoConf "stream" "shard-0" demoEnd c0 with
      | Exited c1 cf =>
          state c1 = awsKinesisConsumerFinished /\
          trace cf = [SvcGetIter "stream" "shard-0" "100";
                      SvcGetRecords "iter-after-100"; Dispatch ["101"];
                      CkptDelete "stream" "shard-0"; WgDone]
      | StillRunning _ => False
      end
  | inl _ => False
  end.
Proof. vm_compute. split; reflexivity. Qed.

Example run_to_lost_claim :
  match runConsumer demoConf "stream" "shard-0" demoIterators "100" with
  | inr c0 =>
      match goroutine demoConf "stream" "shard-0" demoStolen c0 with
      | Exited c1 cf =>
          state c1 = awsKinesisConsumerYielding /\
          trace cf = [SvcGetIter "stream" "shard-0" "100";
                      SvcGetRecords "iter-after-100"; Dispatch ["101"];
                      SvcGetRecords "iter-2";
                      CkptCheckpoint "stream" "shard-0" "101" false;
                      CkptYield "stream" "shard-0" "101"; WgDone]
      | StillRunning _ => False
      end
  | inl _ => False
  end.
Proof. vm_compute. split; reflexivity. Qed.

Example run_to_close :
  match runConsumer demoConf "stream" "shard-0" demoIterators "100" with
  | inr c0 =>
      match goroutine demoConf "stream" "shard-0" demoClosed c0 with
      | Exited c1 cf =>
          state c1 = awsKinesisConsumerClosing /\
          trace cf = [SvcGetIter "stream" "shard-0" "100";
                      SvcGetRecords "iter-after-100";
                      CkptCheckpoint "stream" "shard-0" "101" true; WgDone]
      | StillRunning _ => False
      end
  | inl _ => False
  end.
Proof. vm_compute. split; reflexivity. Qed.

(** When the batcher or the first iterator cannot be had, no goroutine is
    started; runConsumer itself releases the wait group and yields. *)
Example run_init_failure :
  runConsumer demoConf "stream" "shard-0" throttledIterators "100"
  = inl (AwsError "ProvisionedThroughputExceededException" "slow down" None,
         [SvcGetIter "stream" "shard-0" "100"; WgDone;
          CkptCheckpoint "stream" "shard-0" "100" true])
    :> (error * list (action (list string))) + consumer (list string * string) string (list string).
Proof. reflexivity. Qed.

(** C8, as amended: when a record pull fails with an expired-iterator
    error (and not a timeout), the consumer asks for a new iterator at
    the sequence the batcher reports; if it gets one it continues from
    it, and from the one positioned after that sequence when the service
    answers that request; if the request fails it keeps the iterator it
    had and pulls again after the backoff.  Either way the batcher and
    the pending message are untouched and the consumer stays in the
    Consuming state. *)
Theorem expired_iterator_refresh {B R M : Type} `{RecordBatcher B R M}
    (k : readerConf) (streamID shardID : string)
    (ev : iter_env R) (c : consumer B R M) (e : error) :
  state c = awsKinesisConsumerConsuming ->
  pending c = [] ->
  nextPullChan c = unblockedChan ->
  iter c <> "" ->
  ev_getRecords ev = inl e ->
  isExpiredIterator e = true ->
  awsErrIsTimeout e = false ->
  let c' := pull_section k streamID shardID ev c in
  let sequence := GetSequence (recordBatcher c) in
  recordBatcher c' = recordBatcher c /\
  pendingMsg c' = pendingMsg c /\
  state c' = awsKinesisConsumerConsuming /\
  nextPullChan c' = timedChan (backoffDelay k (boff c)) /\
  In (SvcGetIter streamID shardID sequence) (trace c') /\
  match getIter (StartFromOldest k) (ev_getShardIterator ev)
                streamID shardID sequence with
  | inr fresh => iter c' = fresh /\ fresh <> ""
  | inl _ => iter c' = iter c
  end /\
  (forall it : string,
      sequence <> "" -> it <> "" ->
      ev_getShardIterator ev
        (mkIterInput streamID shardID (Some sequence)
           ShardIteratorTypeAfterSequenceNumber) = inr (Some it) ->
      iter c' = it).
Proof.
  intros Hst Hpend Hpull Hiter Hrec Hexp Htime c' sequence.
  assert (Hc' : c' =
    match getIter (StartFromOldest k) (ev_getShardIterator ev)
                  streamID shardID sequence with
    | inl _ =>
        mkConsumer (recordBatcher c) [] (iter c) (state c) (pendingMsg c)
          (timedChan (backoffDelay k (boff c))) (nextTimedBatchChan c) (S (boff c))
          ((trace c ++ [SvcGetRecords (iter c)]) ++ [SvcGetIter streamID shardID sequence])
    | inr newIter =>
        mkConsumer (recordBatcher c) [] newIter (state c) (pendingMsg c)
          (timedChan (backoffDelay k (boff c))) (nextTimedBatchChan c) (S (boff c))
          ((trace c ++ [SvcGetRecords (iter c)]) ++ [SvcGetIter streamID shardID sequence])
    end).
  { subst c' sequence. unfold pull_section.
    rewrite Hst, Hpend, Hpull, Hrec. simpl. rewrite Htime, Hexp. simpl.
    destruct (getIter _ _ _ _ _) as [e'|fresh] eqn:Eit; simpl.
    - apply String.eqb_neq in Hiter. rewrite Hiter. reflexivity.
    - pose proof (getIter_nonempty _ _ _ _ _ _ Eit) as Hne.
      apply String.eqb_neq in Hne. rewrite Hne. reflexivity. }
  assert (Hmain :
    recordBatcher c' = recordBatcher c /\ pendingMsg c' = pendingMsg c /\
    state c' = awsKinesisConsumerConsuming /\
    nextPullChan c' = timedChan (backoffDelay k (boff c)) /\
    In (SvcGetIter streamID shardID sequence) (trace c') /\
    match getIter (StartFromOldest k) (ev_getShardIterator ev)
                  streamID shardID sequence with
    | inr fresh => iter c' = fresh /\ fresh <> ""
    | inl _ => iter c' = iter c
    end).
  { rewrite Hc'.
    destruct (getIter _ _ _ _ _) as [e'|fresh] eqn:Eit; simpl;
      repeat split; auto;
      try (apply in_or_app; right; left; reflexivity).
    exact (getIter_nonempty _ _ _ _ _ _ Eit). }
  destruct Hmain as (H1 & H2 & H3 & H4 & H5 & H6).
  repeat split; auto.
  intros it Hseq Hit Hsvc.
  rewrite (getIter_after_sequence _ _ _ _ _ _ Hseq Hit Hsvc) in H6.
  apply H6.
Qed.

Lemma expired_iterator_refresh_witness :
  let c' := pull_section demoConf "stream" "shard-0" demoExpiredPull demoConsuming in
  recordBatcher c' = recordBatcher demoConsuming /\
  state c' = awsKinesisConsumerConsuming /\
  iter c' = "iter-after-100".
Proof.
  pose proof (expired_iterator_refresh demoConf "stream" "shard-0"
                demoExpiredPull demoConsuming expired
                eq_refl eq_refl eq_refl
                (fun Heq : "iter-1" = "" => eq_ind "iter-1"%string
                   (fun s => match s with EmptyString => False | _ => True end)
                   I "" Heq)
                eq_refl eq_refl eq_refl) as Hw.
  simpl in Hw. destruct Hw as (Hb & _ & Hs & _ & _ & Hi & _).
  cbv zeta. split; [exact Hb|]. split; [exact Hs|]. exact (proj1 Hi).
Defined.

(** C8, as stated, fails: when the service refuses the request for a new
    iterator, the consumer is left with the iterator it had; none issued
    for the acknowledged sequence replaces it. *)
Lemma refused_refresh_keeps_iterator :
  ~ (forall (k : readerConf) (streamID shardID : string)
            (ev : iter_env string)
            (c : consumer (list string * string) string (list string))
            (e : error),
        state c = awsKinesisConsumerConsuming ->
        pending c = [] ->
        nextPullChan c = unblockedChan ->
        iter c <> "" ->
        ev_getRecords ev = inl e ->
        isExpiredIterator e = true ->
        awsErrIsTimeout e = false ->
        exists req : GetShardIteratorInput,
          StartingSequenceNumber req = Some (GetSequence (recordBatcher c)) /\
          ev_getShardIterator ev req
          = inr (Some (iter (pull_section k streamID shardID ev c)))).
Proof.
  intros Hall.
  destruct (Hall demoConf "stream" "shard-0" demoExpiredPullRefused
              demoConsuming expired eq_refl eq_refl eq_refl)
    as (req & _ & Habs); try reflexivity.
  - discriminate.
  - discriminate Habs.
Qed.

(** There the consumer keeps the expired iterator and stays consuming. *)
Example expired_iterator_kept_when_refused :
  let c' := pull_section demoConf "stream" "shard-0"
              demoExpiredPullRefused demoConsuming in
  iter c' = "iter-1" /\ state c' = awsKinesisConsumerConsuming /\
  nextPullChan c' = timedChan 300.
Proof. vm_compute. repeat split; reflexivity. Qed.

End ConsumerFacts.

(** ** Connect on a connected driver *)

Module ConnectFacts.



(** A Connect that returned nil has left the driver connected, so that a
    second Connect changes nothing. *)
Lemma kvConnect_twice (env1 env2 : Nats.connect_env) (kv kv' : Nats.kvOutput) :
  Nats.kvConnect env1 kv = (kv', None) ->
  Nats.kvConnect env2 kv' = (kv', None).
Proof.
  unfold Nats.kvConnect at 1.
  destruct (Nats.kv_natsConn kv) eqn:E.
  - intros [= <-]. unfold Nats.kvConnect. rewrite E. reflexivity.
  - destruct (Nats.ce_Connect env1); [discriminate|].
    destruct (Nats.ce_JetStream env1); [discriminate|].
    destruct (Nats.ce_KeyValue env1); [discriminate|].
    intros [= <-]. reflexivity.
Qed.

Lemma jsConnect_twice (env1 env2 : Nats.connect_env)
    (j j' : Nats.jetStreamOutput) :
  Nats.jsConnect env1 j = (j', None) ->
  Nats.jsConnect env2 j' = (j', None).
Proof.
  unfold Nats.jsConnect at 1.
  destruct (Nats.js_natsConn j) eqn:E.
  - intros [= <-]. unfold Nats.jsConnect. rewrite E. reflexivity.
  - destruct (Nats.ce_Connect env1); [discriminate|].
    destruct (Nats.ce_JetStream env1); [discriminate|].
    intros [= <-]. reflexivity.
Qed.

Lemma kinesis_Connect_twice (env1 env2 : Kinesis.connect_env)
    (k k' : Kinesis.kinesisReader) :
  Kinesis.Connect env1 k = (k', None) ->
  Kinesis.Connect env2 k' = (k', None).
Proof.
  unfold Kinesis.Connect at 1.
  destruct (Kinesis.msgChan k) eqn:E.
  - intros [= <-]. unfold Kinesis.Connect. rewrite E. reflexivity.
  - destruct (Kinesis.ce_newCheckpointer env1); [discriminate|].
    destruct (Kinesis.ce_waitUntilStreamsExists env1); [discriminate|].
    intros [= <-]. reflexivity.
Qed.

Lemma sqs_Connect_twice (a : SQS.sqsWriter) :
  SQS.Connect (fst (SQS.Connect a)) = (fst (SQS.Connect a), None).
Proof. unfold SQS.Connect. destruct (SQS.sqs a) eqn:E; simpl; [rewrite E|]; reflexivity. Qed.

End ConnectFacts.

(** ** Failed updates of a dynamic broker *)

Module DynamicFacts.

Import Dynamic.

Section Updates.

Variables config component : Type.
Variable unmarshal : string -> error + config.
Variable construct : string -> config -> error + component.
Variable retryIndefinitely : component -> error + component.



End Updates.




End DynamicFacts.

(** ** The drop_on output *)

Module DropOnFacts.

Import DropOn.

(** The expectations of the tests of the wrapper. *)

(** TestDropOnNothing: without [error] the child's error is read back. *)
Example TestDropOnNothing :
  response (dropOn (mkDropOn false None) childForbidden)
  = Responded (Some forbidden).
Proof. reflexivity. Qed.

(** TestDropOnError: with [error] nil is read back. *)
Example TestDropOnError :
  response (dropOn (mkDropOn true None) childForbidden) = Responded None.
Proof. reflexivity. Qed.

(** TestDropOnBackpressureWithErrors: back pressure of 100ms, [error]
    unset; "first" and "second" read back the back-pressure error, and
    once the server allows connections "third" and "fourth" read back nil
    and are received. *)
Example TestDropOnBackpressureWithErrors :
  response (dropOn (mkDropOn false (Some (ms 100))) childUnreachable)
  = Responded (Some (ErrBackPressure (ms 100))) /\
  delivered (dropOn (mkDropOn false (Some (ms 100))) childUnreachable) = false /\
  response (dropOn (mkDropOn false (Some (ms 100))) childDelivers)
  = Responded None /\
  delivered (dropOn (mkDropOn false (Some (ms 100))) childDelivers) = true.
Proof. repeat split; reflexivity. Qed.

(** TestDropOnDisconnectBackpressureNoErrors: back pressure of 100ms and
    [error] set; after the server has gone "third" and "fourth" read back
    nil and are not received. *)
Example TestDropOnDisconnectBackpressureNoErrors :
  response (dropOn (mkDropOn true (Some (ms 100))) childDelivers)
  = Responded None /\
  response (dropOn (mkDropOn true (Some (ms 100))) childUnreachable)
  = Responded None /\
  delivered (dropOn (mkDropOn true (Some (ms 100))) childUnreachable) = false.
Proof. repeat split; reflexivity. Qed.

(** The sentence of the design document, read alone, does not give what
    TestDropOnBackpressureWithErrors reads back. *)
Example documented_reading_differs_from_test :
  response (dropOn_as_documented (mkDropOn false (Some (ms 100))) childUnreachable)
  <> Responded (Some (ErrBackPressure (ms 100))).
Proof. discriminate. Qed.

(** C4: when the child output responds with a non-nil error, the wrapper
    responds nil upstream when on_error is true and the child's error
    when on_error is false. *)
Theorem child_error_response (conf : dropOnConfig) (after : Z) (e : error) :
  backPressured conf (Accepts after (Some e)) = None ->
  response (dropOn conf (Accepts after (Some e)))
  = Responded (if on_error conf then None else Some e) /\
  delivered (dropOn conf (Accepts after (Some e))) = true.
Proof.
  intros Hbp. unfold dropOn. rewrite Hbp. simpl.
  destruct (on_error conf); split; reflexivity.
Qed.

Lemma child_error_response_witness :
  response (dropOn (mkDropOn true (Some (ms 100))) (Accepts (ms 5) (Some forbidden)))
  = Responded None /\
  delivered (dropOn (mkDropOn true (Some (ms 100))) (Accepts (ms 5) (Some forbidden)))
  = true.
Proof.
  apply (child_error_response (mkDropOn true (Some (ms 100))) (ms 5) forbidden).
  reflexivity.
Defined.




End DropOnFacts.

(** ** The dedupe processor *)

Module DedupeFacts.

Import Dedupe.

(** The expectations of the tests of the processor. *)

(** TestDedupe: "hello world" passes once, its copy is dropped, another
    document passes; the three in one batch leave one batch of two. *)
Example TestDedupe :
  let conf := fooConf true in
  let '(cs1, out1) := ProcessBatch contentKey conf emptyFoocache ["hello world"] in
  let '(cs2, out2) := ProcessBatch contentKey conf cs1 ["hello world"] in
  let '(cs3, out3) := ProcessBatch contentKey conf cs2 ["hello world 2"] in
  length out1 = 1%nat /\ length out2 = 0%nat /\ length out3 = 1%nat /\
  snd (ProcessBatch contentKey conf emptyFoocache
         ["hello world"; "hello world"; "hello world 2"])
  = [["hello world"; "hello world 2"]].
Proof. vm_compute. repeat split; reflexivity. Qed.

(** TestDedupeCacheErrors: with the cache gone, both messages are dropped
    by default and both pass, as one batch, when drop_on_err is false. *)
Example TestDedupeCacheErrors :
  snd (ProcessBatch contentKey (fooConf true) ∅ ["foo"; "bar"]) = [] /\
  snd (ProcessBatch contentKey (fooConf false) ∅ ["foo"; "bar"]) = [["foo"; "bar"]].
Proof. split; reflexivity. Qed.

Section Processor.

Context {message : Type}.
Variable key : message -> string.
Variable conf : dedupeConfig.

(** What emerges from a stream of batches is what emerges from its
    messages taken one after the other. *)
Lemma processStream_concat (cs : caches) (batches : list (list message)) :
  processStream key conf cs batches = processAll key conf cs (concat batches).
Proof.
  revert cs. induction batches as [|b rest IH]; intros cs; simpl; [reflexivity|].
  assert (Happ : forall (ms1 ms2 : list message) (c : caches),
             processAll key conf c (ms1 ++ ms2)
             = let '(c1, o1) := processAll key conf c ms1 in
               let '(c2, o2) := processAll key conf c1 ms2 in
               (c2, o1 ++ o2)).
  { induction ms1 as [|m ms1 IH1]; intros ms2 c; simpl.
    - destruct (processAll key conf c ms2); reflexivity.
    - destruct (processMessage key conf c m) as [c1 o].
      rewrite IH1. destruct (processAll key conf c1 ms1) as [c2 o1].
      destruct (processAll key conf c2 ms2) as [c3 o2].
      destruct o; reflexivity. }
  rewrite Happ. unfold ProcessBatch.
  destruct (processAll key conf cs b) as [cs1 out].
  rewrite IH. destruct (processAll key conf cs1 (concat rest)) as [cs2 outs].
  destruct out; simpl; [reflexivity|]. rewrite app_nil_r. reflexivity.
Qed.

(** With the cache accessible: of the messages with fingerprint [k], none
    emerges when the cache already holds [k], and otherwise the first one
    and no other. *)
Lemma processAll_fingerprint (k : string) (ms : list message)
    (cs : caches) (keys : gset string) :
  cs !! cache conf = Some keys ->
  filter (fun m => key m = k) (snd (processAll key conf cs ms))
  = if bool_decide (k ∈ keys) then []
    else take 1 (filter (fun m => key m = k) ms).
Proof.
  revert cs keys. induction ms as [|m rest IH]; intros cs keys Hcs; simpl.
  - destruct (bool_decide (k ∈ keys)); reflexivity.
  - unfold processMessage. rewrite Hcs.
    destruct (bool_decide (key m ∈ keys)) eqn:Eseen.
    + apply bool_decide_eq_true in Eseen.
      specialize (IH cs keys Hcs).
      destruct (processAll key conf cs rest) as [cs2 out]. simpl in *.
      rewrite IH. rewrite filter_cons.
      destruct (decide (key m = k)) as [Heq|Hne]; [|reflexivity].
      subst k. rewrite bool_decide_eq_true_2 by exact Eseen. reflexivity.
    + apply bool_decide_eq_false in Eseen.
      specialize (IH (<[cache conf := {[key m]} ∪ keys]> cs) ({[key m]} ∪ keys)
                     (lookup_insert_eq _ _ _)).
      destruct (processAll key conf _ rest) as [cs2 out]. simpl in *.
      rewrite !filter_cons.
      destruct (decide (key m = k)) as [Heq|Hne].
      * subst k. rewrite IH.
        rewrite bool_decide_eq_true_2 by set_solver.
        rewrite bool_decide_eq_false_2 by exact Eseen. reflexivity.
      * rewrite IH.
        destruct (bool_decide (k ∈ keys)) eqn:Ek.
        -- apply bool_decide_eq_true in Ek.
           rewrite bool_decide_eq_true_2 by set_solver. reflexivity.
        -- apply bool_decide_eq_false in Ek.
           rewrite bool_decide_eq_false_2; [reflexivity|].
           intros [Hin|Hin]%elem_of_union; [|tauto].
           apply elem_of_singleton in Hin. congruence.
Qed.

End Processor.

(** C5: of the messages with one fingerprint that pass through a dedupe
    processor whose cache is accessible and did not hold that fingerprint
    before them, exactly one emerges downstream, the first to reach the
    processor, however the messages are batched and whatever other
    messages travel with them. *)
Theorem dedupe_first_wins {message : Type} (key : message -> string)
    (conf : dedupeConfig) (cs : caches) (keys : gset string) (k : string)
    (batches : list (list message)) (first : message) :
  cs !! cache conf = Some keys ->
  k ∉ keys ->
  head (filter (fun m => key m = k) (concat batches)) = Some first ->
  filter (fun m => key m = k) (snd (processStream key conf cs batches))
  = [first].
Proof.
  intros Hcs Hk Hfirst.
  rewrite processStream_concat.
  rewrite (processAll_fingerprint key conf k (concat batches) cs keys Hcs).
  rewrite bool_decide_eq_false_2 by exact Hk.
  destruct (filter (fun m => key m = k) (concat batches)) as [|x xs];
    [discriminate|].
  injection Hfirst as ->. reflexivity.
Qed.

Lemma dedupe_first_wins_witness :
  filter (fun m => contentKey m = "hello world")
    (snd (processStream contentKey (fooConf true) emptyFoocache
            [["hello world"; "other"]; ["hello world"]; ["hello world"; "hello world 2"]]))
  = ["hello world"].
Proof.
  apply (dedupe_first_wins contentKey (fooConf true) emptyFoocache ∅
           "hello world"
           [["hello world"; "other"]; ["hello world"]; ["hello world"; "hello world 2"]]
           "hello world").
  - reflexivity.
  - apply not_elem_of_empty.
  - reflexivity.
Defined.

(** C6: when the named cache cannot be accessed, the message is dropped
    when drop_on_err is true and forwarded when it is false, and the
    caches are left as they were. *)
Theorem dedupe_cache_error {message : Type} (key : message -> string)
    (conf : dedupeConfig) (cs : caches) (m : message) :
  cs !! cache conf = None ->
  processMessage key conf cs m
  = (cs, if drop_on_err conf then None else Some m).
Proof. intros Hcs. unfold processMessage. rewrite Hcs. reflexivity. Qed.

Lemma dedupe_cache_error_witness :
  processMessage contentKey (fooConf false) ∅ "foo" = (∅, Some "foo") /\
  processMessage contentKey (fooConf true) ∅ "foo" = (∅, None).
Proof.
  split.
  - apply (dedupe_cache_error contentKey (fooConf false) ∅ "foo").
    apply lookup_empty.
  - apply (dedupe_cache_error contentKey (fooConf true) ∅ "foo").
    apply lookup_empty.
Defined.

End DedupeFacts.

(** ** More on the SQS writer *)

Module SQSMore.

Import SQS.

(** Refilling moves entries from the waiting list to the request, in
    order, and loses none. *)
Lemma refill_app (inp rest : list entry) :
  fst (refill inp rest) ++ snd (refill inp rest) = inp ++ rest.
Proof.
  unfold refill.
  destruct ((0 <? length rest)%nat && (length inp <? sqsMaxRecordsCount)%nat);
    [|reflexivity].
  destruct (sqsMaxRecordsCount - length inp <? length rest)%nat; simpl.
  - rewrite <- app_assoc, take_drop. reflexivity.
  - rewrite app_nil_r. reflexivity.
Qed.

(** A request of at most ten entries stays so after a refill. *)
Lemma refill_length (inp rest : list entry) :
  (length inp <= sqsMaxRecordsCount)%nat ->
  (length (fst (refill inp rest)) <= sqsMaxRecordsCount)%nat.
Proof.
  unfold refill, sqsMaxRecordsCount. intros Hlen.
  destruct ((0 <? length rest)%nat && (length inp <? 10)%nat) eqn:E; [|exact Hlen].
  destruct (10 - length inp <? length rest)%nat eqn:E2; simpl.
  - rewrite length_app, length_take. lia.
  - apply Nat.ltb_ge in E2. rewrite length_app. lia.
Qed.

(** Refilling an empty request takes the next ten waiting entries. *)
Lemma refill_nil (rest : list entry) :
  refill [] rest = (take sqsMaxRecordsCount rest, drop sqsMaxRecordsCount rest).
Proof.
  unfold refill, sqsMaxRecordsCount. simpl.
  destruct (0 <? length rest)%nat eqn:E0; simpl.
  - destruct (10 <? length rest)%nat eqn:E; [reflexivity|].
    apply Nat.ltb_ge in E. rewrite take_ge, drop_ge by lia. reflexivity.
  - apply Nat.ltb_ge in E0. destruct rest; [reflexivity|simpl in E0; lia].
Qed.

(** Without a sender fault, the entries queued again are those reported
    failed, one for one, with the attributes recorded for their ids. *)
Lemma requeue_ok (am : gmap string sqsAttributes) (unproc : list failedEntry)
    (acc inp : list entry) :
  requeue am unproc acc = inr inp ->
  inp = acc ++ map (fun v => mkEntry (failedId v)
                               (default zeroAttrs (am !! failedId v))) unproc.
Proof.
  revert acc. induction unproc as [|v rest IH]; intros acc; simpl.
  - intros [= <-]. rewrite app_nil_r. reflexivity.
  - destruct (SenderFault v); [discriminate|].
    intros Hr. rewrite (IH _ Hr), <- app_assoc. reflexivity.
Qed.

(** The first entry reported with a sender fault decides the error. *)
Lemma requeue_sender_fault (am : gmap string sqsAttributes)
    (unproc : list failedEntry) (acc : list entry) (v : failedEntry) :
  List.find (fun v => SenderFault v) unproc = Some v ->
  requeue am unproc acc = inl (ErrRecordFailed (Code v) (Message v)).
Proof.
  revert acc. induction unproc as [|w rest IH]; intros acc; simpl; [discriminate|].
  destruct (SenderFault w).
  - intros [= <-]. reflexivity.
  - apply IH.
Qed.


Section Loop.

Variable am : gmap string sqsAttributes.

Lemma iteration_request_bound (ev : iter_env) (s s' : loop_state) :
  boundedResponse ev ->
  (length (inputEntries s) <= sqsMaxRecordsCount)%nat ->
  iteration am ev s = inl s' ->
  (length (inputEntries s') <= sqsMaxRecordsCount)%nat.
Proof.
  unfold boundedResponse, iteration. intros Hb Hlen.
  destruct (send ev) as [e|[|v unproc]].
  - destruct (wait ev); [|discriminate].
    destruct (select_wait ev); [|discriminate|discriminate].
    intros [= <-]. exact Hlen.
  - pose proof (refill_length [] (entries s)) as Hr.
    destruct (refill [] (entries s)) as [inp rest].
    intros [= <-]. simpl in *. apply Hr. unfold sqsMaxRecordsCount. lia.
  - destruct (requeue am (v :: unproc) []) as [e|inp0] eqn:Er; [discriminate|].
    apply requeue_ok in Er. simpl app in Er.
    destruct (wait ev); [|discriminate].
    destruct (select_wait ev); [|discriminate|discriminate].
    pose proof (refill_length inp0 (entries s)) as Hr.
    destruct (refill inp0 (entries s)) as [inp rest].
    intros [= <-]. simpl in *. apply Hr. subst inp0.
    simpl. rewrite length_map. simpl in Hb. exact Hb.
Qed.

Lemma loop_request_bound (envs : list iter_env) (s s' : loop_state) :
  Forall boundedResponse envs ->
  (length (inputEntries s) <= sqsMaxRecordsCount)%nat ->
  loop am envs s = Running s' ->
  (length (inputEntries s') <= sqsMaxRecordsCount)%nat.
Proof.
  revert s. induction envs as [|ev envs IH]; intros s Hall Hlen; simpl.
  - destruct (inputEntries s) eqn:E; [discriminate|]. rewrite <- E in Hlen.
    intros [= <-]. exact Hlen.
  - destruct (inputEntries s) eqn:E; [discriminate|]. rewrite <- E in Hlen.
    inversion Hall as [|? ? Hev Hrest]; subst.
    destruct (iteration am ev s) as [s1|r] eqn:Eit; [|discriminate].
    apply IH; [exact Hrest|].
    eapply iteration_request_bound; eauto.
Qed.

(** When SQS accepts every request in full, the loop ends with nil once
    the waiting entries have gone out ten at a time. *)
Lemma loop_all_accepted (envs : list iter_env) (inp rest : list entry) :
  Forall (fun ev => send ev = inr []) envs ->
  (inp = [] -> rest = []) ->
  (inp <> [] -> 1 <= length envs /\ length rest <= 10 * (length envs - 1))%nat ->
  loop am envs (mkLoop inp rest None) = Returned None.
Proof.
  revert inp rest. induction envs as [|ev envs IH]; intros inp rest Hall Hnil Hlen.
  - destruct inp; [reflexivity|]. destruct Hlen as [Hlen _]; [discriminate|].
    simpl in Hlen. lia.
  - simpl. destruct inp as [|x xs]; [reflexivity|].
    inversion Hall as [|? ? Hev Hrest]; subst.
    unfold iteration. rewrite Hev, refill_nil. simpl inputEntries. simpl entries.
    destruct Hlen as [_ Hlen]; [discriminate|]. simpl in Hlen.
    apply IH; [exact Hrest| |].
    + unfold sqsMaxRecordsCount. intros Ht.
      destruct rest; [reflexivity|discriminate].
    + unfold sqsMaxRecordsCount. intros Hne.
      assert (rest <> []) by (intros ->; apply Hne; reflexivity).
      assert (1 <= length rest)%nat by (destruct rest; simpl; [congruence|lia]).
      rewrite length_drop. split; lia.
Qed.


End Loop.

Section Writer.

Context {message : Type}.
Variable getSQSAttributes : list message -> nat -> error + sqsAttributes.

(** One entry per message, with the ids "i", "i+1", ... in order. *)
Lemma buildEntries_ids (batch : list message) (i n : nat) (es : list entry) :
  buildEntries getSQSAttributes batch i n = inr es ->
  map Id es = map pretty (seq i n).
Proof.
  revert i es. induction n as [|n IH]; intros i es; simpl.
  - intros [= <-]. reflexivity.
  - destruct (getSQSAttributes batch i); [discriminate|].
    destruct (buildEntries getSQSAttributes batch (S i) n) as [e|es'] eqn:E;
      [discriminate|].
    intros [= <-]. simpl. rewrite (IH _ _ E). reflexivity.
Qed.


Lemma firstChunk_bound (es : list entry) :
  (length (inputEntries (firstChunk es)) <= sqsMaxRecordsCount)%nat.
Proof.
  unfold firstChunk, sqsMaxRecordsCount.
  destruct (10 <? length es)%nat eqn:E; simpl.
  - rewrite length_take. lia.
  - apply Nat.ltb_ge in E. exact E.
Qed.

End Writer.

(** X1: as long as no response reports more failed entries than a request
    can hold, every request WriteBatch is about to send carries at least
    one and at most ten entries. *)
Theorem WriteBatch_request_size {message : Type}
    (getSQSAttributes : list message -> nat -> error + sqsAttributes)
    (a : sqsWriter) (batch : list message)
    (envs : list iter_env) (s : loop_state) :
  Forall boundedResponse envs ->
  WriteBatch getSQSAttributes a batch envs = Running s ->
  (1 <= length (inputEntries s) <= sqsMaxRecordsCount)%nat.
Proof.
  unfold WriteBatch. intros Hall Hrun.
  destruct (sqs a); [|discriminate].
  destruct (buildEntries getSQSAttributes batch 0 (length batch)) as [e|es];
    [discriminate|].
  split.
  - pose proof (SQSFacts.loop_running_nonempty _ _ _ _ Hrun) as Hne.
    destruct (inputEntries s); simpl; [congruence|lia].
  - eapply loop_request_bound; eauto. apply firstChunk_bound.
Qed.

Lemma WriteBatch_request_size_witness :
  (1 <= length (inputEntries
                  (mkLoop [mkEntry "1" (mkAttrs [] None None (Some "b"))] []
                          (Some (ErrFailedToSend 1))))
     <= sqsMaxRecordsCount)%nat.
Proof.
  apply (WriteBatch_request_size demoAttrs demoWriter ["a"; "b"]
           [mkIter (inr [mkFailed "1" false "InternalError" "try again"])
                   (Some 1000%Z) true false false 0]).
  - constructor; [|constructor].
    unfold boundedResponse, sqsMaxRecordsCount. simpl. lia.
  - reflexivity.
Defined.

(** X2: when the loop goes round, the entries still to be sent are, in
    order, the entries to retry (the whole request after a failed call,
    the entries reported failed after a partial failure, none after a
    full success) followed by the entries that were waiting: the refill
    loses and duplicates nothing. *)
Theorem iteration_keeps_entries (am : gmap string sqsAttributes)
    (ev : iter_env) (s s' : loop_state) :
  iteration am ev s = inl s' ->
  inputEntries s' ++ entries s'
  = match send ev with
    | inl _ => inputEntries s
    | inr unproc =>
        map (fun v => mkEntry (failedId v)
                        (default zeroAttrs (am !! failedId v))) unproc
    end ++ entries s.
Proof.
  unfold iteration.
  destruct (send ev) as [e|[|v unproc]].
  - destruct (wait ev); [|discriminate].
    destruct (select_wait ev); [|discriminate|discriminate].
    intros [= <-]. reflexivity.
  - pose proof (refill_app [] (entries s)) as Hr.
    destruct (refill [] (entries s)) as [inp rest].
    intros [= <-]. exact Hr.
  - destruct (requeue am (v :: unproc) []) as [e|inp0] eqn:Er; [discriminate|].
    apply requeue_ok in Er. simpl app in Er.
    destruct (wait ev); [|discriminate].
    destruct (select_wait ev); [|discriminate|discriminate].
    pose proof (refill_app inp0 (entries s)) as Hr.
    destruct (refill inp0 (entries s)) as [inp rest].
    intros [= <-]. simpl in *. rewrite Hr, Er. reflexivity.
Qed.

Lemma iteration_keeps_entries_witness :
  inputEntries (mkLoop [mkEntry "7" zeroAttrs; mkEntry "10" zeroAttrs] [] 
                       (Some (ErrFailedToSend 1)))
  ++ entries (mkLoop [mkEntry "7" zeroAttrs; mkEntry "10" zeroAttrs] []
                     (Some (ErrFailedToSend 1)))
  = map (fun v => mkEntry (failedId v) (default zeroAttrs ((∅ : gmap string sqsAttributes) !! failedId v)))
        [mkFailed "7" false "InternalError" "try again"]
    ++ [mkEntry "10" zeroAttrs].
Proof.
  apply (iteration_keeps_entries (∅ : gmap string sqsAttributes)
           (mkIter (inr [mkFailed "7" false "InternalError" "try again"])
                   (Some 1000%Z) true false false 0)
           (mkLoop [mkEntry "7" zeroAttrs] [mkEntry "10" zeroAttrs] None)).
  reflexivity.
Defined.

(** X3: a response in which an entry failed by the sender's fault ends
    WriteBatch at once with the code and message of the first such entry:
    neither the backoff nor the context is consulted, and nothing is
    retried. *)
Theorem sender_fault_aborts (am : gmap string sqsAttributes)
    (ev : iter_env) (s : loop_state)
    (unproc : list failedEntry) (v : failedEntry) :
  send ev = inr unproc ->
  List.find (fun v => SenderFault v) unproc = Some v ->
  iteration am ev s = inr (Some (ErrRecordFailed (Code v) (Message v))).
Proof.
  intros Hs Hf. unfold iteration. rewrite Hs.
  destruct unproc as [|w rest]; [discriminate|].
  rewrite (requeue_sender_fault am (w :: rest) [] v Hf). reflexivity.
Qed.

Lemma sender_fault_aborts_witness :
  iteration (∅ : gmap string sqsAttributes)
    (mkIter (inr [mkFailed "0" false "InternalError" "try again";
                  mkFailed "1" true "InvalidMessageContents" "bad character"])
            (Some 1000%Z) false true false 0)
    (mkLoop [mkEntry "0" zeroAttrs; mkEntry "1" zeroAttrs] [] None)
  = inr (Some (ErrRecordFailed "InvalidMessageContents" "bad character")).
Proof.
  apply (sender_fault_aborts (∅ : gmap string sqsAttributes) _ _
           [mkFailed "0" false "InternalError" "try again";
            mkFailed "1" true "InvalidMessageContents" "bad character"]
           (mkFailed "1" true "InvalidMessageContents" "bad character"));
    reflexivity.
Defined.

(** X4: on a connected writer whose messages all have attributes, if SQS
    accepts every request in full then WriteBatch returns nil, and one
    request for every ten messages is enough for that. *)
Theorem WriteBatch_all_accepted {message : Type}
    (getSQSAttributes : list message -> nat -> error + sqsAttributes)
    (a : sqsWriter) (batch : list message) (es : list entry)
    (envs : list iter_env) :
  is_Some (sqs a) ->
  buildEntries getSQSAttributes batch 0 (length batch) = inr es ->
  Forall (fun ev => send ev = inr []) envs ->
  (length batch <= 10 * length envs)%nat ->
  WriteBatch getSQSAttributes a batch envs = Returned None.
Proof.
  intros [c Hc] Hes Hall Hlen. unfold WriteBatch. rewrite Hc, Hes.
  assert (Hn : length es = length batch).
  { pose proof (buildEntries_ids getSQSAttributes batch 0 _ es Hes) as Hids.
    apply (f_equal (@length string)) in Hids.
    rewrite !length_map, length_seq in Hids. exact Hids. }
  unfold firstChunk, sqsMaxRecordsCount.
  destruct (10 <? length es)%nat eqn:E.
  - apply Nat.ltb_lt in E. apply loop_all_accepted; [exact Hall| |].
    + intros Ht. exfalso. apply (f_equal (@length entry)) in Ht.
      rewrite length_take in Ht. cbn [length] in Ht. lia.
    + intros _. rewrite length_drop. split; lia.
  - apply Nat.ltb_ge in E. apply loop_all_accepted; [exact Hall|reflexivity|].
    intros Hne. simpl. split; [|lia].
    destruct es; [congruence|]. simpl in Hn. lia.
Qed.

Lemma WriteBatch_all_accepted_witness :
  WriteBatch demoAttrs demoWriter
    ["a"; "b"; "c"; "d"; "e"; "f"; "g"; "h"; "i"; "j"; "k"; "l"]
    [mkIter (inr []) None false true true 3; mkIter (inr []) (Some 5%Z) true false false 0]
  = Returned None.
Proof.
  eapply (WriteBatch_all_accepted demoAttrs demoWriter
            ["a"; "b"; "c"; "d"; "e"; "f"; "g"; "h"; "i"; "j"; "k"; "l"]).
  - eexists. reflexivity.
  - reflexivity.
  - repeat constructor.
  - simpl. lia.
Defined.



(** X6: an entry that SQS reports failed is sent again exactly as it was
    built: the id-to-attributes table gives back, for the id of every
    entry of the batch, the attributes computed for that message. *)
Theorem retried_entry_keeps_attributes {message : Type}
    (getSQSAttributes : list message -> nat -> error + sqsAttributes)
    (batch : list message) (es : list entry) (e : entry) (code msg : string) :
  buildEntries getSQSAttributes batch 0 (length batch) = inr es ->
  e ∈ es ->
  requeue (attrMapOf es) [mkFailed (Id e) false code msg] [] = inr [e].
Proof.
  intros Hes Hin. simpl.
  assert (Hnd : NoDup (map Id es)).
  { rewrite (buildEntries_ids getSQSAttributes batch 0 _ es Hes).
    apply (NoDup_fmap_2 pretty), NoDup_seq. }
  assert (Hl : attrMapOf es !! Id e = Some (entryAttrs e)).
  { unfold attrMapOf. apply elem_of_list_to_map_1.
    - rewrite <- list_fmap_compose. exact Hnd.
    - apply (list_elem_of_fmap_2 (fun e => (Id e, entryAttrs e))) in Hin.
      exact Hin. }
  rewrite Hl. simpl. destruct e; reflexivity.
Qed.

Lemma retried_entry_keeps_attributes_witness :
  requeue (attrMapOf [mkEntry "0" (mkAttrs [] None None (Some "a"));
                      mkEntry "1" (mkAttrs [] None None (Some "b"))])
    [mkFailed (Id (mkEntry "1" (mkAttrs [] None None (Some "b"))))
              false "InternalError" "try again"] []
  = inr [mkEntry "1" (mkAttrs [] None None (Some "b"))].
Proof.
  apply (retried_entry_keeps_attributes demoAttrs ["a"; "b"]).
  - reflexivity.
  - apply list_elem_of_In. right. left. reflexivity.
Defined.

End SQSMore.

(** ** The stream list of the Kinesis reader, and its explicit shards *)

Module KinesisSetupFacts.

Import KinesisSetup.

Section Streams.

Variable TrimSpace : string -> string.

Lemma addStream_exclusive (k k' : streams) (el : string) :
  exclusive k -> addStream TrimSpace k el = inr k' -> exclusive k'.
Proof.
  unfold addStream, exclusive. intros Hk.
  destruct (0 <? String.length (TrimSpace el))%nat; [|intros [= <-]; exact Hk].
  destruct (1 <? length (Split (TrimSpace el) colon))%nat.
  - destruct (0 <? length (balancedStreams k))%nat eqn:Eb; [discriminate|].
    destruct (2 <? length (Split (TrimSpace el) colon))%nat; [discriminate|].
    intros [= <-]. right. simpl. apply Nat.ltb_ge in Eb.
    destruct (balancedStreams k); [reflexivity|simpl in Eb; lia].
  - destruct (0 <? size (streamShards k))%nat eqn:Es; [discriminate|].
    intros [= <-]. left. simpl. apply Nat.ltb_ge in Es. lia.
Qed.

Lemma addStreams_exclusive (els : list string) (k k' : streams) :
  exclusive k -> addStreams TrimSpace k els = inr k' -> exclusive k'.
Proof.
  revert k. induction els as [|el rest IH]; intros k Hk; simpl.
  - intros [= <-]. exact Hk.
  - destruct (addStream TrimSpace k el) as [e|k1] eqn:E; [discriminate|].
    apply IH. eapply addStream_exclusive; eauto.
Qed.

Lemma parseStreams_exclusive (ts : list string) (k k' : streams) :
  exclusive k -> parseStreams TrimSpace k ts = inr k' -> exclusive k'.
Proof.
  revert k. induction ts as [|t rest IH]; intros k Hk; simpl.
  - intros [= <-]. exact Hk.
  - destruct (addStreams TrimSpace k (Split t comma)) as [e|k1] eqn:E;
      [discriminate|].
    apply IH. eapply addStreams_exclusive; eauto.
Qed.

(** An element that is accepted names at most one shard. *)
Lemma addStream_one_shard (k k' : streams) (el : string) :
  addStream TrimSpace k el = inr k' ->
  TrimSpace el <> "" ->
  (length (Split (TrimSpace el) colon) <= 2)%nat.
Proof.
  unfold addStream. intros Hadd Hne.
  destruct (0 <? String.length (TrimSpace el))%nat eqn:E0.
  - destruct (1 <? length (Split (TrimSpace el) colon))%nat eqn:E1.
    + destruct (0 <? length (balancedStreams k))%nat; [discriminate|].
      destruct (2 <? length (Split (TrimSpace el) colon))%nat eqn:E2;
        [discriminate|].
      apply Nat.ltb_ge in E2. exact E2.
    + apply Nat.ltb_ge in E1. lia.
  - apply Nat.ltb_ge in E0. destruct (TrimSpace el); [congruence|simpl in E0; lia].
Qed.

Lemma addStreams_one_shard (els : list string) (k k' : streams) (el : string) :
  addStreams TrimSpace k els = inr k' ->
  In el els -> TrimSpace el <> "" ->
  (length (Split (TrimSpace el) colon) <= 2)%nat.
Proof.
  revert k. induction els as [|x rest IH]; intros k; simpl; [tauto|].
  destruct (addStream TrimSpace k x) as [e|k1] eqn:E; [discriminate|].
  intros Hrest [<-|Hin] Hne.
  - eapply addStream_one_shard; eauto.
  - eapply IH; eauto.
Qed.

End Streams.

(** X7: a stream list that [newKinesisReaderFromConfig] accepts never
    mixes the two kinds: either no stream is to be balanced or no shard
    is named explicitly. *)
Theorem parsed_streams_never_mixed (TrimSpace : string -> string)
    (confStreams : list string) (k : streams) :
  parseStreams TrimSpace noStreams confStreams = inr k ->
  streamShards k = ∅ \/ balancedStreams k = [].
Proof.
  intros Hp.
  destruct (parseStreams_exclusive TrimSpace confStreams noStreams k) as [Hs|Hb];
    [left; reflexivity|exact Hp| |right; exact Hb].
  left. apply map_size_empty_inv, Hs.
Qed.

Lemma parsed_streams_never_mixed_witness :
  exists k,
    parseStreams demoTrim noStreams ["foo:0, foo:1"; " bar:2 ,"] = inr k /\
    (streamShards k = ∅ \/ balancedStreams k = []).
Proof.
  eexists. split; [reflexivity|].
  apply (parsed_streams_never_mixed demoTrim ["foo:0, foo:1"; " bar:2 ,"]).
  reflexivity.
Defined.

(** The elements of the witness, parsed; a list with both kinds, and an
    element with two shards, are refused. *)
Example parse_explicit :
  parseStreams demoTrim noStreams ["foo:0, foo:1"; " bar:2 ,"]
  = inr (mkStreams (<["bar" := ["2"]]> (<["foo" := ["0"; "1"]]> ∅)) []).
Proof. vm_compute. reflexivity. Qed.

Example parse_mixed :
  parseStreams demoTrim noStreams ["foo"; "bar:2"] = inl errCannotMixBalancedShards /\
  parseStreams demoTrim noStreams ["bar:2,foo"] = inl errCannotMixBalancedShards /\
  parseStreams demoTrim noStreams ["foo:0:1"] = inl (errInvalidStream "foo:0:1").
Proof. repeat split; reflexivity. Qed.

(** X8: every element of an accepted stream list, once split at the
    commas and trimmed, is blank or has at most one colon: a stream with
    more than one shard in one element is refused. *)
Theorem parsed_streams_one_shard_each (TrimSpace : string -> string)
    (confStreams : list string) (k0 k : streams) (t el : string) :
  parseStreams TrimSpace k0 confStreams = inr k ->
  In t confStreams ->
  In el (Split t comma) ->
  TrimSpace el <> "" ->
  (length (Split (TrimSpace el) colon) <= 2)%nat.
Proof.
  revert k0. induction confStreams as [|x rest IH]; intros k0; simpl; [tauto|].
  destruct (addStreams TrimSpace k0 (Split x comma)) as [e|k1] eqn:E;
    [discriminate|].
  intros Hrest [<-|Hin] Hel Hne.
  - eapply addStreams_one_shard; eauto.
  - eapply IH; eauto.
Qed.

Lemma parsed_streams_one_shard_each_witness :
  (length (Split (demoTrim " foo:1") colon) <= 2)%nat.
Proof.
  apply (parsed_streams_one_shard_each demoTrim ["foo:0, foo:1"; " bar:2 ,"]
           noStreams
           (mkStreams (<["bar" := ["2"]]> (<["foo" := ["0"; "1"]]> ∅)) [])
           "foo:0, foo:1" " foo:1").
  - vm_compute. reflexivity.
  - left. reflexivity.
  - right. left. reflexivity.
  - discriminate.
Defined.

Section Explicit.

Variable env : explicit_env.

(** Unless the function returns, the failed shards are collected in
    order. *)
Lemma startShards_failed (streamID : string) (shards failed f : list string) :
  startShards env streamID shards failed = (f, false) ->
  f = failed ++ failing env streamID shards.
Proof.
  revert failed. induction shards as [|sh rest IH]; intros failed; simpl.
  - intros [= <-]. unfold failing. rewrite app_nil_r. reflexivity.
  - unfold failing. rewrite filter_cons.
    destruct (startShard env streamID sh) as [e|] eqn:Es.
    + destruct (xe_ctxErr env); [discriminate|].
      intros Hr. rewrite (IH _ Hr).
      destruct (decide (is_Some (Some e))) as [_|Hn];
        [|exfalso; apply Hn; eauto].
      rewrite <- app_assoc. reflexivity.
    + intros Hr. rewrite (IH _ Hr).
      destruct (decide (is_Some (@None error))) as [[x Hx]|_]; [discriminate|].
      reflexivity.
Qed.

Lemma fold_returned (l : list (string * list string))
    (a : gmap string (list string)) :
  foldl (explicitStream env) (a, true) l = (a, true).
Proof. induction l as [|x l IH]; simpl; [reflexivity|exact IH]. Qed.

(** A pass that does not return leaves, for every stream it visited, the
    shards that failed, and no entry when none failed. *)
Lemma fold_retry_set (l : list (string * list string))
    (acc m' : gmap string (list string)) :
  NoDup l.*1 ->
  foldl (explicitStream env) (acc, false) l = (m', false) ->
  forall i : string,
    m' !! i = match (list_to_map l : gmap string (list string)) !! i with
              | Some shards => retrySet env i shards
              | None => acc !! i
              end.
Proof.
  revert acc. induction l as [|[k v] l IH]; intros acc Hnd; simpl.
  - intros [= <-] i. rewrite lookup_empty. reflexivity.
  - inversion Hnd as [|? ? Hk Hnd']; subst.
    unfold explicitStream at 2. simpl.
    destruct (startShards env k v []) as [f ret] eqn:Ef.
    destruct ret; [rewrite fold_returned; discriminate|].
    apply startShards_failed in Ef. simpl in Ef. subst f.
    intros Hfold i.
    assert (Hacc : forall acc1,
               foldl (explicitStream env) (acc1, false) l = (m', false) ->
               acc1 !! k = retrySet env k v ->
               (forall j, j <> k -> acc1 !! j = acc !! j) ->
               m' !! i = match <[k:=v]> (list_to_map l : gmap string (list string)) !! i with
                         | Some shards => retrySet env i shards
                         | None => acc !! i
                         end).
    { intros acc1 Hf Hk1 Hother. rewrite (IH acc1 Hnd' Hf i).
      destruct (decide (i = k)) as [->|Hne].
      - rewrite lookup_insert_eq.
        rewrite (not_elem_of_list_to_map_1 l k Hk). exact Hk1.
      - rewrite lookup_insert_ne by congruence.
        destruct (list_to_map l !! i); [reflexivity|]. apply Hother, Hne. }
    unfold retrySet in *.
    destruct (failing env k v) as [|x xs] eqn:Efail; simpl in Hfold.
    + apply (Hacc _ Hfold).
      * apply lookup_delete_eq.
      * intros j Hj. apply lookup_delete_ne. congruence.
    + apply (Hacc _ Hfold).
      * apply lookup_insert_eq.
      * intros j Hj. apply lookup_insert_ne. congruence.
Qed.

(** Shards that all start leave nothing to retry. *)
Lemma failing_nil (streamID : string) (shards : list string) :
  (forall sh, sh ∈ shards -> startShard env streamID sh = None) ->
  failing env streamID shards = [].
Proof.
  unfold failing. induction shards as [|sh rest IH]; intros Hok; [reflexivity|].
  rewrite filter_cons.
  destruct (decide (is_Some (startShard env streamID sh))) as [[x Hx]|_].
  - rewrite (Hok sh) in Hx by apply list_elem_of_here. discriminate.
  - apply IH. intros s Hs. apply Hok, list_elem_of_further, Hs.
Qed.

(** When nothing fails, a pass does not return. *)
Lemma startShards_all_ok (streamID : string) (shards failed : list string) :
  (forall sh, sh ∈ shards -> startShard env streamID sh = None) ->
  startShards env streamID shards failed = (failed, false).
Proof.
  induction shards as [|sh rest IH]; intros Hok; simpl; [reflexivity|].
  rewrite (Hok sh) by apply list_elem_of_here.
  apply IH. intros s Hs. apply Hok. apply list_elem_of_further, Hs.
Qed.

Lemma fold_all_ok (l : list (string * list string))
    (acc : gmap string (list string)) :
  (forall k v sh, (k, v) ∈ l -> sh ∈ v -> startShard env k sh = None) ->
  exists m', foldl (explicitStream env) (acc, false) l = (m', false).
Proof.
  revert acc. induction l as [|[k v] l IH]; intros acc Hok; simpl; [eauto|].
  unfold explicitStream at 2. simpl.
  rewrite startShards_all_ok
    by (intros sh Hsh; apply (Hok k v sh); [apply list_elem_of_here|exact Hsh]).
  simpl. apply IH. intros k' v' sh Hin Hsh.
  apply (Hok k' v' sh); [apply list_elem_of_further, Hin|exact Hsh].
Qed.

End Explicit.

(** What a pass that did not return leaves for a stream. *)
Lemma explicitPass_lookup (env : explicit_env)
    (m m' : gmap string (list string)) (streamID : string) :
  explicitPass env m = (m', false) ->
  m' !! streamID = m !! streamID ≫= retrySet env streamID.
Proof.
  unfold explicitPass. intros Hp.
  rewrite (fold_retry_set env (map_to_list m) m m'
             (NoDup_fst_map_to_list m) Hp streamID).
  rewrite list_to_map_to_list.
  destruct (m !! streamID); reflexivity.
Qed.

(** X9: after a pass of [runExplicitShards] that did not return, the map
    holds for every stream exactly the shards whose claim or consumer
    start failed in that pass, in their order, and no entry for a stream
    whose shards all started. *)
Theorem explicit_pass_retry_set (env : explicit_env)
    (m m' : gmap string (list string)) :
  explicitPass env m = (m', false) ->
  m' = map_imap (retrySet env) m.
Proof.
  intros Hp. apply map_eq. intros i.
  rewrite (explicitPass_lookup env m m' i Hp), map_lookup_imap. reflexivity.
Qed.

Lemma explicit_pass_retry_set_witness :
  (<["foo" := ["1"]]> ∅ : gmap string (list string))
  = map_imap (retrySet oneShardLeased)
      (<["bar" := ["2"]]> (<["foo" := ["0"; "1"]]> ∅)).
Proof.
  apply (explicit_pass_retry_set oneShardLeased
           (<["bar" := ["2"]]> (<["foo" := ["0"; "1"]]> ∅))
           (<["foo" := ["1"]]> ∅)).
  vm_compute. reflexivity.
Defined.

(** X10: [runExplicitShards] leaves its loop, the map being empty, only
    when every shard of the map it started with has been claimed and its
    consumer started in one of the passes. *)
Theorem explicit_all_started (envs : list explicit_env)
    (m : gmap string (list string)) (streamID shardID : string)
    (shards : list string) :
  runExplicitShards envs m = AllStarted ->
  m !! streamID = Some shards ->
  shardID ∈ shards ->
  Exists (fun env => startShard env streamID shardID = None) envs.
Proof.
  revert m shards. induction envs as [|env rest IH]; intros m shards; simpl;
    [discriminate|].
  destruct (explicitPass env m) as [m1 ret] eqn:Ep.
  destruct ret; [discriminate|].
  intros Hrun Hm Hin.
  destruct (startShard env streamID shardID) as [e|] eqn:Es;
    [|apply Exists_cons_hd; exact Es].
  apply Exists_cons_tl.
  pose proof (explicitPass_lookup env m m1 streamID Ep) as Hm1.
  rewrite Hm in Hm1. simpl in Hm1. unfold retrySet in Hm1.
  assert (Hf : shardID ∈ failing env streamID shards).
  { unfold failing. apply list_elem_of_filter. split; [rewrite Es; eauto|exact Hin]. }
  destruct (failing env streamID shards) as [|x xs] eqn:Efail.
  { apply elem_of_nil in Hf. destruct Hf. }
  destruct (size m1 =? 0)%nat eqn:Esz.
  - apply Nat.eqb_eq, map_size_empty_inv in Esz. subst m1.
    rewrite lookup_empty in Hm1. discriminate.
  - eapply IH; eauto.
Qed.

Lemma explicit_all_started_witness :
  Exists (fun env => startShard env "foo" "1" = None)
         [oneShardLeased; allShardsFree].
Proof.
  apply (explicit_all_started [oneShardLeased; allShardsFree]
           (<["bar" := ["2"]]> (<["foo" := ["0"; "1"]]> ∅)) "foo" "1" ["0"; "1"]).
  - vm_compute. reflexivity.
  - vm_compute. reflexivity.
  - apply list_elem_of_In. right. left. reflexivity.
Defined.

(** X11: a pass in which every shard of the map can be claimed and
    started ends the loop at once. *)
Theorem explicit_all_free (env : explicit_env) (rest : list explicit_env)
    (m : gmap string (list string)) :
  (forall streamID shards shardID,
      m !! streamID = Some shards -> shardID ∈ shards ->
      startShard env streamID shardID = None) ->
  runExplicitShards (env :: rest) m = AllStarted.
Proof.
  intros Hok. simpl.
  destruct (fold_all_ok env (map_to_list m) m) as [m' Hm'].
  { intros k v sh Hin Hsh. apply elem_of_map_to_list in Hin. eauto. }
  change (foldl (explicitStream env) (m, false) (map_to_list m))
    with (explicitPass env m) in Hm'.
  rewrite Hm'.
  assert (Hempty : m' = ∅).
  { apply map_eq. intros i. rewrite lookup_empty.
    rewrite (explicitPass_lookup env m m' i Hm').
    destruct (m !! i) as [shards|] eqn:Ei; [|reflexivity]. simpl.
    unfold retrySet.
    rewrite (failing_nil env i shards); [reflexivity|].
    intros sh Hsh. exact (Hok i shards sh Ei Hsh). }
  subst m'. rewrite map_size_empty. reflexivity.
Qed.

Lemma explicit_all_free_witness :
  runExplicitShards [allShardsFree] (<["foo" := ["0"; "1"]]> ∅) = AllStarted.
Proof.
  apply (explicit_all_free allShardsFree [] (<["foo" := ["0"; "1"]]> ∅)).
  intros streamID shards shardID _ _. reflexivity.
Defined.

End KinesisSetupFacts.

(** ** More on the Kinesis consumer *)

Module KinesisMoreFacts.

Import Kinesis KinesisMore.

(** *** Errors that count as timeouts *)

Lemma length_append (a b : string) :
  String.length (a +:+ b) = (String.length a + String.length b)%nat.
Proof. induction a as [|c a IH]; simpl; [reflexivity|]. rewrite IH. reflexivity. Qed.

Lemma append_assoc (a b c : string) : (a +:+ b) +:+ c = a +:+ (b +:+ c).
Proof.
  induction a as [|x a IH]; [reflexivity|].
  change (String.String x ((a +:+ b) +:+ c) = String.String x (a +:+ (b +:+ c))).
  f_equal. exact IH.
Qed.

Lemma substring_all (b : string) : String.substring 0 (String.length b) b = b.
Proof. induction b as [|c b IH]; simpl; [reflexivity|]. rewrite IH. reflexivity. Qed.

Lemma substring_append (a b : string) :
  String.substring (String.length a) (String.length b) (a +:+ b) = b.
Proof. induction a as [|c a IH]; simpl; [apply substring_all|exact IH]. Qed.

(** A string ends with what was appended to it. *)
Lemma HasSuffix_append (a b : string) : HasSuffix (a +:+ b) b = true.
Proof.
  unfold HasSuffix. rewrite length_append.
  replace (String.length a + String.length b - String.length b)%nat
    with (String.length a) by lia.
  rewrite substring_append, String.eqb_refl.
  rewrite andb_true_r. apply Nat.leb_le. lia.
Qed.

(** An AWS error whose cause ends in "context canceled" is a timeout,
    whatever its code. *)
Lemma awsErrIsTimeout_cancelled_cause (code message cause : string) :
  awsErrIsTimeout (AwsError code message (Some (cause +:+ "context canceled")))
  = true.
Proof.
  unfold awsErrIsTimeout.
  assert (Hs : Error (AwsError code message (Some (cause +:+ "context canceled")))
               = (code +:+ ": " +:+ message
                  +:+ String.String (Ascii.ascii_of_nat 10) ("caused by: " +:+ cause))
                 +:+ "context canceled").
  { cbn [Error]. symmetry. rewrite !append_assoc.
    cbn [String.append]. rewrite ?append_assoc. reflexivity. }
  rewrite Hs, HasSuffix_append. rewrite !orb_true_r. reflexivity.
Qed.

(** *** getIter *)

(** X12: [getIter] never returns an empty iterator; what it returns was
    issued for its first request (after the sequence when one is given,
    otherwise from the oldest or the latest record as configured) or,
    when that request was answered without an iterator, for a request
    from the oldest record.  An error is the one of the failing request,
    or that no iterator could be obtained when both answers were empty. *)
Theorem getIter_issued (StartFromOldest : bool) (svc : shardIteratorAPI)
    (streamID shardID sequence : string) :
  let first := svc (firstRequest StartFromOldest streamID shardID sequence) in
  let fallback := svc (fallbackRequest streamID shardID) in
  let unanswered (r : error + option string) :=
    exists res, r = inr res /\ default "" res = "" in
  match getIter StartFromOldest svc streamID shardID sequence with
  | inr it =>
      it <> "" /\
      (first = inr (Some it) \/ (unanswered first /\ fallback = inr (Some it)))
  | inl e =>
      first = inl e \/
      (unanswered first /\
       (fallback = inl e \/ (unanswered fallback /\ e = ErrNoShardIterator)))
  end.
Proof.
  unfold getIter, firstRequest, fallbackRequest. cbv zeta.
  destruct (0 <? String.length sequence)%nat;
    match goal with
    | |- context [svc ?r] => destruct (svc r) as [e|res] eqn:E1
    end; try (left; reflexivity);
    (destruct (String.eqb (default "" res) "") eqn:Ee;
     [ apply String.eqb_eq in Ee;
       destruct (svc (mkIterInput streamID shardID None ShardIteratorTypeTrimHorizon))
         as [e2|res2] eqn:E2;
       [ right; split; [eauto|left; reflexivity]
       | destruct (String.eqb (default "" res2) "") eqn:Ee2;
         [ apply String.eqb_eq in Ee2; right; split; [eauto|];
           right; split; [eauto|reflexivity]
         | apply String.eqb_neq in Ee2; split; [exact Ee2|];
           right; split; [eauto|];
           destruct res2 as [it2|]; [reflexivity|simpl in Ee2; congruence] ] ]
     | apply String.eqb_neq in Ee; split; [exact Ee|]; left;
       destruct res as [it1|]; [reflexivity|simpl in Ee; congruence] ]).
Qed.

(** With no sequence and start_from_oldest unset the request is for the
    latest record, but the fallback still starts from the oldest. *)
Example getIter_latest_falls_back_to_oldest :
  getIter false
    (fun req => match IteratorType req with
                | ShardIteratorTypeTrimHorizon => inr (Some "iter-oldest")
                | _ => inr None
                end) "stream" "shard-0" ""
  = inr "iter-oldest".
Proof. reflexivity. Qed.

Section Loop.

Context {B R M : Type} `{RecordBatcher B R M}.
Variable k : readerConf.
Variables streamID shardID : string.

Abbreviation consumer := (consumer B R M).

(** *** Where the trace grows *)

Lemma flush_section_trace (c : consumer) :
  match flush_section c with
  | inl c1 | inr c1 => trace c1 = trace c
  end.
Proof.
  unfold flush_section.
  destruct (pendingMsg c); [reflexivity|].
  destruct (isNil (pending c) && isFinished (state c)).
  - destruct (FlushMessage ReaderCtx (recordBatcher c)) as [[b1 m] e].
    destruct m; reflexivity.
  - destruct (HasPendingMessage (recordBatcher c)).
    + destruct (FlushMessage CommitCtx (recordBatcher c)) as [[b1 m] e].
      reflexivity.
    + destruct (negb (isNil (pending c))); [|reflexivity].
      destruct (addRecords (recordBatcher c) (pending c)) as [[b1 m] rest].
      reflexivity.
Qed.

Lemma arm_timed_batch_trace (c : consumer) :
  trace (arm_timed_batch c) = trace c.
Proof. unfold arm_timed_batch. destruct (nextTimedBatchChan c); reflexivity. Qed.

Lemma select_section_trace (ev : iter_env R) (c : consumer) :
  match select_section streamID shardID ev c with
  | inl c1 | inr c1 =>
      exists acts, trace c1 = trace c ++ acts /\
                   Forall (fun a => isServiceCall a = false) acts
  end.
Proof.
  assert (Hnil : exists acts : list (action M),
             trace c = trace c ++ acts /\
             Forall (fun a => isServiceCall a = false) acts).
  { exists []. rewrite app_nil_r. split; [reflexivity|constructor]. }
  assert (Hck : forall sq fin, exists acts : list (action M),
             trace c ++ [CkptCheckpoint streamID shardID sq fin] = trace c ++ acts /\
             Forall (fun a => isServiceCall a = false) acts).
  { intros sq fin. eexists. split; [reflexivity|]. repeat constructor. }
  unfold select_section.
  destruct (chosen ev c); simpl; try exact Hnil.
  - destruct (ev_ctxDone ev); simpl; [exact Hnil|].
    destruct (ev_checkpoint ev) as [e|[|]]; simpl; apply Hck.
  - eexists. split; [reflexivity|].
    destruct (pendingMsg c); repeat constructor.
Qed.

(** A finished consumer goes round without a call of the service, and
    stays finished. *)
Lemma iteration_finished (ev : iter_env R) (c : consumer) :
  state c = awsKinesisConsumerFinished ->
  match Kinesis.iteration k streamID shardID ev c with
  | inl c1 =>
      state c1 = awsKinesisConsumerFinished /\
      exists acts, trace c1 = trace c ++ acts /\
                   Forall (fun a => isServiceCall a = false) acts
  | inr c1 =>
      exists acts, trace c1 = trace c ++ acts /\
                   Forall (fun a => isServiceCall a = false) acts
  end.
Proof.
  intros Hfin. unfold Kinesis.iteration.
  assert (Hpull : pull_section k streamID shardID ev c
                  = mkConsumer (recordBatcher c) (pending c) (iter c) (state c)
                      (pendingMsg c) (unblockPullChan (nextPullChan c))
                      (nextTimedBatchChan c) (boff c) (trace c)).
  { unfold pull_section. rewrite Hfin. reflexivity. }
  rewrite Hpull.
  set (c0 := mkConsumer _ _ _ _ _ _ _ _ _).
  pose proof (flush_section_trace c0) as Htr.
  pose proof (ConsumerFacts.flush_section_keeps c0) as Hkeep.
  destruct (flush_section c0) as [c1|c1].
  - destruct Hkeep as [Hs _].
    pose proof (ConsumerFacts.arm_timed_batch_keeps c1) as (Has & _ & _).
    pose proof (arm_timed_batch_trace c1) as Hat.
    pose proof (select_section_trace ev (arm_timed_batch c1)) as Hsel.
    pose proof (ConsumerFacts.select_section_cases streamID shardID ev
                  (arm_timed_batch c1)) as Hcases.
    destruct (select_section streamID shardID ev (arm_timed_batch c1)) as [c2|c2].
    + destruct Hcases as [Hs2 _]. split.
      * rewrite Hs2, Has, Hs. exact Hfin.
      * rewrite Hat, Htr in Hsel. exact Hsel.
    + rewrite Hat, Htr in Hsel. exact Hsel.
  - exists []. rewrite app_nil_r. split; [exact Htr|constructor].
Qed.

End Loop.

(** X14: the pending records are handed to the batcher in the order
    they were pulled and none is skipped: what remains pending is a
    suffix of them, and either every record was added and no batch
    filled up, or the records before that suffix were added and the
    message is the one the batcher flushed after the last of them. *)
Theorem addRecords_order {B R M : Type} `{RecordBatcher B R M}
    (recs : list R) (b b' : B) (m : option M) (rest : list R) :
  addRecords b recs = (b', m, rest) ->
  exists taken,
    recs = taken ++ rest /\
    ((rest = [] /\ m = None /\ b' = addAll b recs) \/
     (taken <> [] /\
      exists e, FlushMessage CommitCtx (addAll b taken) = (b', m, e))).
Proof.
  revert b. induction recs as [|r recs IH]; intros b; simpl.
  - intros [= <- <- <-]. exists []. split; [reflexivity|]. left. auto.
  - destruct (AddRecord r b) as [b1 full] eqn:Ea. destruct full.
    + destruct (FlushMessage CommitCtx b1) as [[b2 m2] e2] eqn:Ef.
      intros [= <- <- <-]. exists [r]. split; [reflexivity|]. right.
      split; [discriminate|]. exists e2.
      unfold addAll. simpl. rewrite Ea. exact Ef.
    + intros Hr. destruct (IH b1 Hr) as (taken & -> & Hcase).
      exists (r :: taken). split; [reflexivity|].
      assert (Hb1 : forall l, addAll b (r :: l) = addAll b1 l).
      { intros l. unfold addAll. simpl. rewrite Ea. reflexivity. }
      destruct Hcase as [(Hrest & Hm & Hb)|(Hne & e & Hf)].
      * left. split; [exact Hrest|]. split; [exact Hm|]. exact Hb.
      * right. split; [discriminate|]. exists e. rewrite Hb1. exact Hf.
Qed.

Lemma addRecords_order_witness :
  exists taken : list string,
    ["101"; "102"; "103"] = taken ++ ["102"; "103"] /\
    ((["102"; "103"] = [] /\ Some ["101"] = None /\
      ([], "101") = addAll ([], "100") ["101"; "102"; "103"]) \/
     (taken <> [] /\
      exists e, FlushMessage CommitCtx (addAll ([], "100") taken)
                = (([], "101"), Some ["101"], e))).
Proof.
  apply (addRecords_order ["101"; "102"; "103"] ([], "100") ([], "101")
           (Some ["101"]) ["102"; "103"]).
  reflexivity.
Defined.

(** X13: once a consumer is Finished (its shard iterator is spent) it
    makes no further call of the Kinesis service: whatever the
    environment does, all it adds to its trace until and including its
    exit are checkpoint calls, dispatches and the release of the wait
    group. *)
Theorem finished_consumer_never_pulls {B R M : Type} `{RecordBatcher B R M}
    (k : readerConf) (streamID shardID : string)
    (envs : list (iter_env R)) (c : consumer B R M) :
  state c = awsKinesisConsumerFinished ->
  exists acts,
    trace (match goroutine k streamID shardID envs c with
           | Exited _ cf => cf
           | StillRunning c' => c'
           end) = trace c ++ acts /\
    Forall (fun a => isServiceCall a = false) acts.
Proof.
  revert c. induction envs as [|ev envs IH]; intros c Hfin; simpl.
  - exists []. rewrite app_nil_r. split; [reflexivity|constructor].
  - pose proof (iteration_finished k streamID shardID ev c Hfin) as Hit.
    destruct (Kinesis.iteration k streamID shardID ev c) as [c1|c1].
    + destruct Hit as (Hfin1 & acts1 & Htr1 & Hall1).
      destruct (IH c1 Hfin1) as (acts2 & Htr2 & Hall2).
      exists (acts1 ++ acts2). split.
      * rewrite Htr2, Htr1, app_assoc. reflexivity.
      * apply Forall_app. split; assumption.
    + destruct Hit as (acts1 & Htr1 & Hall1).
      destruct (ConsumerFacts.deferred_checkpoint_actions streamID shardID c1)
        as (Hd & _ & _).
      exists (acts1 ++ exitActions streamID shardID (deferred streamID shardID c1)).
      split.
      * rewrite Hd, Htr1, app_assoc. reflexivity.
      * apply Forall_app. split; [exact Hall1|].
        unfold exitActions. apply Forall_app. split; [|repeat constructor].
        destruct (state (deferred streamID shardID c1)); repeat constructor.
Qed.

Lemma finished_consumer_never_pulls_witness :
  exists acts,
    trace (match goroutine demoConf "stream" "shard-0" demoAfterEnd demoFinished with
           | Exited _ cf => cf
           | StillRunning c' => c'
           end)
    = trace demoFinished ++ acts /\
    Forall (fun a => isServiceCall a = false) acts.
Proof.
  apply (finished_consumer_never_pulls demoConf "stream" "shard-0").
  reflexivity.
Defined.

(** X15: a pull that fails because the context was cancelled (the
    context's own errors, the component timeout, or an AWS error whose
    cause ends in "context canceled") is not treated as a failure: the
    consumer neither backs off, nor refreshes its iterator, nor changes
    state; it only made the call. *)
Theorem cancelled_pull_is_no_failure {B R M : Type} `{RecordBatcher B R M}
    (k : readerConf) (streamID shardID : string)
    (ev : iter_env R) (c : consumer B R M) (e : error) :
  state c = awsKinesisConsumerConsuming ->
  pending c = [] ->
  nextPullChan c = unblockedChan ->
  iter c <> "" ->
  ev_getRecords ev = inl e ->
  e = ContextCanceled \/ e = ContextDeadlineExceeded \/ e = ErrTimeout \/
  (exists code message cause,
      e = AwsError code message (Some (cause +:+ "context canceled"))) ->
  pull_section k streamID shardID ev c
  = mkConsumer (recordBatcher c) [] (iter c) (state c) (pendingMsg c)
      unblockedChan (nextTimedBatchChan c) (boff c)
      (trace c ++ [SvcGetRecords (iter c)]).
Proof.
  intros Hst Hpend Hpull Hiter Hrec He.
  assert (Ht : awsErrIsTimeout e = true).
  { destruct He as [->|[->|[->|(code & message & cause & ->)]]];
      try reflexivity.
    apply awsErrIsTimeout_cancelled_cause. }
  unfold pull_section. rewrite Hst, Hpend, Hpull, Hrec. simpl.
  rewrite Ht. simpl. apply String.eqb_neq in Hiter. rewrite Hiter.
  reflexivity.
Qed.

Lemma cancelled_pull_is_no_failure_witness :
  pull_section demoConf "stream" "shard-0"
    (mkEnv (inl (AwsError "RequestCanceled" "request context canceled"
                   (Some ("" +:+ "context canceled"))))
           throttledIterators SelPull true (inr true))
    demoConsuming
  = mkConsumer ([], "100") [] "iter-1" awsKinesisConsumerConsuming None
      unblockedChan None 0 [SvcGetRecords "iter-1"].
Proof.
  apply (cancelled_pull_is_no_failure demoConf "stream" "shard-0"
           (mkEnv (inl (AwsError "RequestCanceled" "request context canceled"
                          (Some ("" +:+ "context canceled"))))
                  throttledIterators SelPull true (inr true))
           demoConsuming
           (AwsError "RequestCanceled" "request context canceled"
              (Some ("" +:+ "context canceled"))));
    try reflexivity.
  - discriminate.
  - right. right. right. exists "RequestCanceled", "request context canceled", "".
    reflexivity.
Defined.

(** *** Rebalancing *)

Section Rebalance.

Variable clientID : string.
Variable leasePeriod : Z.

(** Whether some claim of the list is on the shard. *)
Lemma claim_on_shard_dec (cs : list awsKinesisClientClaim) (s : string) :
  (exists c, In c cs /\ ShardID c = s) \/ ~ (exists c, In c cs /\ ShardID c = s).
Proof.
  induction cs as [|c rest IH].
  - right. intros (c & [] & _).
  - destruct (decide (ShardID c = s)) as [Heq|Hne].
    + left. exists c. split; [left; reflexivity|exact Heq].
    + destruct IH as [(c' & Hin & Hs)|Hnot].
      * left. exists c'. split; [right; exact Hin|exact Hs].
      * right. intros (c' & [<-|Hin] & Hs); [congruence|]. apply Hnot. eauto.
Qed.

Lemma claims_keep_none (now : Z) (owner s : string)
    (claims : list awsKinesisClientClaim) (m : gmap string string) :
  (forall c, In c claims -> ShardID c = s -> leaseLive leasePeriod now c) ->
  m !! s = None ->
  foldl (claimStep leasePeriod now owner) m claims !! s = None.
Proof.
  revert m. induction claims as [|c rest IH]; intros m Hlive Hm; simpl; [exact Hm|].
  apply IH; [intros c' Hin; apply Hlive; right; exact Hin|].
  unfold claimStep.
  destruct (wrap64 (leasePeriod * 2) <? Since now (LeaseTimeout c))%Z eqn:E.
  - destruct (decide (ShardID c = s)) as [Heq|Hne].
    + pose proof (Hlive c (or_introl eq_refl) Heq) as Hl.
      unfold leaseLive in Hl. congruence.
    + rewrite lookup_insert_ne by exact Hne. exact Hm.
  - destruct (decide (ShardID c = s)) as [Heq|Hne].
    + rewrite Heq. apply lookup_delete_eq.
    + rewrite lookup_delete_ne by exact Hne. exact Hm.
Qed.

Lemma claims_drop_live (now : Z) (owner s : string)
    (claims : list awsKinesisClientClaim) (m : gmap string string) :
  (forall c, In c claims -> ShardID c = s -> leaseLive leasePeriod now c) ->
  (exists c, In c claims /\ ShardID c = s) ->
  foldl (claimStep leasePeriod now owner) m claims !! s = None.
Proof.
  revert m. induction claims as [|c rest IH]; intros m Hlive (c0 & Hin & Hs);
    [destruct Hin|].
  simpl. destruct (decide (ShardID c = s)) as [Heq|Hne].
  - apply claims_keep_none; [intros c' Hin'; apply Hlive; right; exact Hin'|].
    unfold claimStep. pose proof (Hlive c (or_introl eq_refl) Heq) as Hl.
    unfold leaseLive in Hl. rewrite Hl, Heq. apply lookup_delete_eq.
  - apply IH; [intros c' Hin'; apply Hlive; right; exact Hin'|].
    destruct Hin as [<-|Hin]; [congruence|]. eauto.
Qed.

Lemma unclaimedOf_fold (now : Z) (shards : list Shard)
    (clientClaims : list (string * list awsKinesisClientClaim)) :
  unclaimedOf leasePeriod now shards clientClaims
  = foldl (fun m cc => foldl (claimStep leasePeriod now (fst cc)) m (snd cc))
          (foldl (fun m s => if isShardFinished s then m
                             else <[ShardId s := ""]> m) ∅ shards)
          clientClaims.
Proof. reflexivity. Qed.

(** A shard all of whose claims are live is not among the unclaimed. *)
Lemma unclaimedOf_live (now : Z) (shards : list Shard)
    (clientClaims : list (string * list awsKinesisClientClaim)) (s : string) :
  (forall client claims c,
      In (client, claims) clientClaims -> In c claims -> ShardID c = s ->
      leaseLive leasePeriod now c) ->
  (exists client claims c,
      In (client, claims) clientClaims /\ In c claims /\ ShardID c = s) ->
  unclaimedOf leasePeriod now shards clientClaims !! s = None.
Proof.
  rewrite unclaimedOf_fold.
  generalize (foldl (fun m s => if isShardFinished s then m
                                else <[ShardId s := ""]> m)
                    (∅ : gmap string string) shards).
  assert (Hnone : forall ccs (m : gmap string string),
             (forall client claims c,
                 In (client, claims) ccs -> In c claims -> ShardID c = s ->
                 leaseLive leasePeriod now c) ->
             m !! s = None ->
             foldl (fun m cc => foldl (claimStep leasePeriod now (fst cc)) m (snd cc)) m ccs
               !! s = None).
  { induction ccs as [|[cl cs] rest IH]; intros m Hlive Hm; simpl; [exact Hm|].
    apply IH; [intros cl' cs' c' Hin'; apply (Hlive cl' cs' c'); right; exact Hin'|].
    apply claims_keep_none; [|exact Hm].
    intros c Hin. apply (Hlive cl cs c); [left; reflexivity|exact Hin]. }
  induction clientClaims as [|[cl cs] rest IH];
    intros m Hlive (client & claims & c & Hin & Hc & Hs); [destruct Hin|].
  simpl.
  destruct (claim_on_shard_dec cs s) as [Hhere|Hnot].
  - apply Hnone; [intros cl' cs' c' Hin'; apply (Hlive cl' cs' c'); right; exact Hin'|].
    apply claims_drop_live; [|exact Hhere].
    intros c' Hin'. apply (Hlive cl cs c'); [left; reflexivity|exact Hin'].
  - apply IH; [intros cl' cs' c' Hin'; apply (Hlive cl' cs' c'); right; exact Hin'|].
    destruct Hin as [[= <- <-]|Hin].
    + exfalso. apply Hnot. eauto.
    + eauto 6.
Qed.

End Rebalance.

(** Grabbing claims only the shards it was given, from their recorded
    owner. *)
Lemma grab_claims (env : pass_env) (l : list (string * string))
    (s from : string) :
  In (ClaimUnclaimed s from) (fst (grab env l)) -> In (s, from) l.
Proof.
  induction l as [|[s' from'] rest IH]; simpl; [tauto|].
  destruct (pe_Claim env s' from') as [e|sq].
  - destruct (pe_ctxErr env); simpl.
    + intros [[= -> ->]|[]]. left. reflexivity.
    + destruct (grab env rest) as [tr e']. simpl in *.
      intros [[= -> ->]|Hin]; [left; reflexivity|right; apply IH, Hin].
  - destruct (grab env rest) as [tr e']. simpl in *.
    intros [[= -> ->]|[Heq|Hin]];
      [left; reflexivity|discriminate|right; apply IH, Hin].
Qed.

(** Stealing claims nothing as unclaimed. *)
Lemma steal_no_unclaimed (clientID : string) (env : pass_env) (selfClaims : nat)
    (clientClaims : list (string * list awsKinesisClientClaim))
    (s from : string) :
  ~ In (ClaimUnclaimed s from) (fst (steal clientID env selfClaims clientClaims)).
Proof.
  induction clientClaims as [|[client claims] rest IH]; simpl; [tauto|].
  destruct (String.eqb client clientID); [exact IH|].
  destruct (selfClaims + 1 <? length claims)%nat; [|exact IH].
  destruct (pe_Claim env _ client) as [e|sq].
  - destruct (pe_ctxErr env); simpl.
    + intros [Heq|[]]. discriminate.
    + destruct (steal clientID env selfClaims rest) as [tr e']. simpl in *.
      intros [Heq|Hin]; [discriminate|tauto].
  - destruct (pe_runConsumer env _ sq).
    + destruct (steal clientID env selfClaims rest) as [tr e']. simpl in *.
      intros [Heq|[Heq|Hin]]; [discriminate|discriminate|tauto].
    + simpl. intros [Heq|[Heq|[]]]; discriminate.
Qed.

(** X16: a shard on which the checkpoint table shows a claim, and whose
    claims are all live (no lease is older than twice the lease period),
    is never claimed as unclaimed in a rebalance pass. *)
Theorem live_lease_not_claimed_as_unclaimed (clientID : string) (leasePeriod : Z)
    (env : pass_env) (tr : list pass_action) (e : pass_end) (found : bool)
    (clientClaims : list (string * list awsKinesisClientClaim))
    (s from : string) :
  rebalanceStream clientID leasePeriod env = (tr, e, found) ->
  pe_AllClaims env = inr clientClaims ->
  (forall client claims c,
      In (client, claims) clientClaims -> In c claims -> ShardID c = s ->
      leaseLive leasePeriod (pe_now env) c) ->
  (exists client claims c,
      In (client, claims) clientClaims /\ In c claims /\ ShardID c = s) ->
  ~ In (ClaimUnclaimed s from) tr.
Proof.
  unfold rebalanceStream. intros Hpass Hclaims Hlive Hex Hin.
  rewrite Hclaims in Hpass.
  destruct (pe_ListShards env) as [e1|shards].
  { injection Hpass as <- _ _. destruct Hin. }
  pose proof (unclaimedOf_live leasePeriod (pe_now env) shards clientClaims s
                Hlive Hex) as Hnone.
  destruct (0 <? size (unclaimedOf leasePeriod (pe_now env) shards clientClaims))%nat.
  - pose proof (grab_claims env
                  (map_to_list (unclaimedOf leasePeriod (pe_now env) shards
                                  clientClaims)) s from) as Hg.
    revert Hpass Hg. destruct (grab env _) as [tr' e']. simpl.
    intros [= <- _ _] Hg. specialize (Hg Hin).
    apply list_elem_of_In, elem_of_map_to_list in Hg. congruence.
  - pose proof (steal_no_unclaimed clientID env
                  (length (claimsOf clientID clientClaims)) clientClaims s from)
      as Hs.
    revert Hpass Hs. destruct (steal clientID env _ clientClaims) as [tr' e'].
    simpl. intros [= <- _ _] Hs. exact (Hs Hin).
Qed.

Lemma live_lease_not_claimed_as_unclaimed_witness :
  ~ In (ClaimUnclaimed "shard-0" "other") [StealAttempt "other" "shard-1"].
Proof.
  apply (live_lease_not_claimed_as_unclaimed "me" 30000 twoShardsHeldByOther
           [StealAttempt "other" "shard-1"] NextStream false
           [("other", [mkClaim "shard-0" 1000; mkClaim "shard-1" 1000])]
           "shard-0" "other").
  - vm_compute. reflexivity.
  - reflexivity.
  - intros client claims c [[= <- <-]|[]] [<-|[<-|[]]] _; reflexivity.
  - exists "other", [mkClaim "shard-0" 1000; mkClaim "shard-1" 1000],
      (mkClaim "shard-0" 1000).
    split; [left; reflexivity|]. split; [left; reflexivity|reflexivity].
Defined.

(** X17: in the stealing loop at most one theft succeeds: the first
    consumer that starts on a stolen shard ends the loop, so a started
    consumer is the last thing the loop did. *)
Theorem steal_stops_at_first_success (clientID : string) (env : pass_env)
    (selfClaims : nat)
    (clientClaims : list (string * list awsKinesisClientClaim))
    (shard sequence : string) :
  In (RunConsumer shard sequence)
     (fst (steal clientID env selfClaims clientClaims)) ->
  pe_runConsumer env shard sequence = None ->
  last (fst (steal clientID env selfClaims clientClaims))
  = Some (RunConsumer shard sequence).
Proof.
  intros Hin Hok. revert Hin.
  induction clientClaims as [|[client claims] rest IH]; simpl; [tauto|].
  destruct (String.eqb client clientID); [exact IH|].
  destruct (selfClaims + 1 <? length claims)%nat; [|exact IH].
  destruct (pe_Claim env _ client) as [e|sq].
  - destruct (pe_ctxErr env); simpl.
    + intros [Heq|[]]. discriminate.
    + destruct (steal clientID env selfClaims rest) as [tr e']. simpl in *.
      intros [Heq|Hin]; [discriminate|].
      specialize (IH Hin). rewrite last_cons, IH. reflexivity.
  - destruct (pe_runConsumer env _ sq) as [e|] eqn:Er.
    + destruct (steal clientID env selfClaims rest) as [tr e']. simpl in *.
      intros [Heq|[Heq|Hin]]; [discriminate| |].
      * injection Heq as <- <-. congruence.
      * specialize (IH Hin). rewrite !last_cons, IH. reflexivity.
    + simpl. intros [Heq|[Heq|[]]]; [discriminate|].
      injection Heq as <- <-. reflexivity.
Qed.

Lemma steal_stops_at_first_success_witness :
  last (fst (steal "me"
               (mkPass (inr []) (inr []) 1005 false (fun _ _ => inr "100")
                       (fun _ _ => None) (fun _ => 0%nat))
               0
               [("a", [mkClaim "shard-0" 1000; mkClaim "shard-1" 1000]);
                ("b", [mkClaim "shard-2" 1000; mkClaim "shard-3" 1000])]))
  = Some (RunConsumer "shard-0" "100").
Proof.
  apply (steal_stops_at_first_success "me" _ 0
           [("a", [mkClaim "shard-0" 1000; mkClaim "shard-1" 1000]);
            ("b", [mkClaim "shard-2" 1000; mkClaim "shard-3" 1000])]
           "shard-0" "100").
  - right. left. reflexivity.
  - reflexivity.
Defined.

(** *** Connect *)



(** X19: a Connect that fails while waiting for the streams to exist has
    already stored the channel: the reader counts as connected, and every
    later Connect returns nil at once without starting a shard loop. *)
Theorem Connect_after_failed_wait (env env2 : connect_env)
    (k k' : kinesisReader) (e : error) (cp : string) :
  Connect env k = (k', Some e) ->
  ce_newCheckpointer env = inr cp ->
  Connect env2 k' = (k', None) /\ started k' = started k.
Proof.
  unfold Connect at 1. intros Hc Hcp.
  destruct (msgChan k); [discriminate|].
  rewrite Hcp in Hc.
  destruct (ce_waitUntilStreamsExists env); [|discriminate].
  injection Hc as <- _. split; reflexivity.
Qed.

Lemma Connect_after_failed_wait_witness :
  Connect (mkConnectEnv (inr "checkpoints") 2 None)
    (mkReader (Some "session") (Some "checkpoints") (Some 1%nat) false "session" [])
  = (mkReader (Some "session") (Some "checkpoints") (Some 1%nat) false "session" [],
     None) /\
  started (mkReader (Some "session") (Some "checkpoints") (Some 1%nat) false
             "session" [])
  = started freshReader.
Proof.
  apply (Connect_after_failed_wait
           (mkConnectEnv (inr "checkpoints") 1 (Some ErrTimeout))
           (mkConnectEnv (inr "checkpoints") 2 None)
           freshReader _ ErrTimeout "checkpoints"); reflexivity.
Defined.

End KinesisMoreFacts.

(** ** The NATS outputs and the key-value input *)

Module NatsMoreFacts.

Import Nats NatsMore.

(** X20: a Connect of the key-value or of the JetStream output that
    fails leaves the output without a connection and has closed the
    connection it dialed, if it dialed one; nothing else is closed. *)
Theorem failed_Connect_closes_dialed (env1 env2 : connect_env)
    (kv kv' : kvOutput) (j j' : jetStreamOutput) (e1 e2 : error) :
  kvConnect env1 kv = (kv', Some e1) ->
  jsConnect env2 j = (j', Some e2) ->
  let dialed env := match ce_Connect env with inr c => [c] | inl _ => [] end in
  kv_natsConn kv' = None /\ kv_closed kv' = kv_closed kv ++ dialed env1 /\
  js_natsConn j' = None /\ js_closed j' = js_closed j ++ dialed env2.
Proof.
  unfold kvConnect, jsConnect. intros Hkv Hjs.
  destruct (kv_natsConn kv) eqn:Ekv; [discriminate|].
  destruct (js_natsConn j) eqn:Ejs; [discriminate|].
  cbv zeta. split; [|split; [|split]].
  - destruct (ce_Connect env1); [injection Hkv as <- _; exact Ekv|].
    destruct (ce_JetStream env1); [injection Hkv as <- _; reflexivity|].
    destruct (ce_KeyValue env1); [injection Hkv as <- _; reflexivity|discriminate].
  - destruct (ce_Connect env1);
      [injection Hkv as <- _; rewrite app_nil_r; reflexivity|].
    destruct (ce_JetStream env1); [injection Hkv as <- _; reflexivity|].
    destruct (ce_KeyValue env1); [injection Hkv as <- _; reflexivity|discriminate].
  - destruct (ce_Connect env2); [injection Hjs as <- _; exact Ejs|].
    destruct (ce_JetStream env2); [injection Hjs as <- _; reflexivity|discriminate].
  - destruct (ce_Connect env2);
      [injection Hjs as <- _; rewrite app_nil_r; reflexivity|].
    destruct (ce_JetStream env2); [injection Hjs as <- _; reflexivity|discriminate].
Qed.

Lemma failed_Connect_closes_dialed_witness :
  kv_natsConn (mkKV "bucket" "${! key }" None None [] [7%nat]) = None /\
  kv_closed (mkKV "bucket" "${! key }" None None [] [7%nat])
  = kv_closed newKV ++ [7%nat] /\
  js_natsConn newJS = None /\
  js_closed newJS = js_closed newJS ++ [].
Proof.
  apply (failed_Connect_closes_dialed
           (mkConnectEnv (inr 7%nat) (inr 8%nat) (inl ErrTimeout))
           (mkConnectEnv (inl ErrTimeout) (inr 8%nat) (inr 9%nat))
           newKV _ newJS _ ErrTimeout ErrTimeout); reflexivity.
Defined.

(** The key-value output fails in one more place: the bucket lookup. *)
Lemma kvConnect_failed (env : connect_env) (kv kv' : kvOutput) (e : error) :
  kvConnect env kv = (kv', Some e) ->
  kv_natsConn kv' = None /\ kv_keyValue kv' = kv_keyValue kv \/
  kv_natsConn kv' = None /\ kv_keyValue kv' = None.
Proof.
  unfold kvConnect.
  destruct (kv_natsConn kv) eqn:Ekv; [discriminate|].
  destruct (ce_Connect env); [intros [= <- _]; left; auto|].
  destruct (ce_JetStream env); [intros [= <- _]; left; auto|].
  destruct (ce_KeyValue env); [intros [= <- _]; right; auto|discriminate].
Qed.

(** Connection and bucket handle go together, whatever is called. *)
Lemma kvStep_paired (kv : kvOutput) (op : connOp) :
  (is_Some (kv_natsConn kv) <-> is_Some (kv_keyValue kv)) ->
  (is_Some (kv_natsConn (kvStep kv op)) <-> is_Some (kv_keyValue (kvStep kv op))).
Proof.
  intros Hp. destruct op as [env|]; simpl.
  - unfold kvConnect. destruct (kv_natsConn kv) eqn:Ekv; simpl.
    + rewrite Ekv. exact Hp.
    + assert (Hnone : kv_keyValue kv = None).
      { destruct (kv_keyValue kv) eqn:Ek; [|reflexivity].
        destruct Hp as [_ Hp]. destruct (Hp (ex_intro _ _ eq_refl)). discriminate. }
      destruct (ce_Connect env); simpl; [rewrite Ekv, Hnone; tauto|].
      destruct (ce_JetStream env); simpl; [rewrite Hnone; tauto|].
      destruct (ce_KeyValue env); simpl; [tauto|].
      split; eauto.
  - split; intros [x Hx]; discriminate.
Qed.

Lemma jsStep_paired (j : jetStreamOutput) (op : connOp) :
  (is_Some (js_natsConn j) <-> is_Some (js_jCtx j)) ->
  (is_Some (js_natsConn (jsStep j op)) <-> is_Some (js_jCtx (jsStep j op))).
Proof.
  intros Hp. destruct op as [env|]; simpl.
  - unfold jsConnect. destruct (js_natsConn j) eqn:Ej; simpl.
    + rewrite Ej. exact Hp.
    + assert (Hnone : js_jCtx j = None).
      { destruct (js_jCtx j) eqn:Ek; [|reflexivity].
        destruct Hp as [_ Hp]. destruct (Hp (ex_intro _ _ eq_refl)). discriminate. }
      destruct (ce_Connect env); simpl; [rewrite Ej, Hnone; tauto|].
      destruct (ce_JetStream env); simpl; [rewrite Hnone; tauto|].
      split; eauto.
  - split; intros [x Hx]; discriminate.
Qed.

Lemma kvRun_paired (ops : list connOp) (kv : kvOutput) :
  (is_Some (kv_natsConn kv) <-> is_Some (kv_keyValue kv)) ->
  is_Some (kv_natsConn (foldl kvStep kv ops))
  <-> is_Some (kv_keyValue (foldl kvStep kv ops)).
Proof.
  revert kv. induction ops as [|op rest IH]; intros kv Hp; [exact Hp|].
  simpl. apply IH, kvStep_paired, Hp.
Qed.

Lemma jsRun_paired (ops : list connOp) (j : jetStreamOutput) :
  (is_Some (js_natsConn j) <-> is_Some (js_jCtx j)) ->
  is_Some (js_natsConn (foldl jsStep j ops))
  <-> is_Some (js_jCtx (foldl jsStep j ops)).
Proof.
  revert j. induction ops as [|op rest IH]; intros j Hp; [exact Hp|].
  simpl. apply IH, jsStep_paired, Hp.
Qed.

Lemma new_paired :
  (is_Some (kv_natsConn newKV) <-> is_Some (kv_keyValue newKV)) /\
  (is_Some (js_natsConn newJS) <-> is_Some (js_jCtx newJS)).
Proof. split; split; intros [x Hx]; discriminate. Qed.

(** X21: after any sequence of Connect and disconnect calls on a new
    output, the handle that Write checks (the bucket of the key-value
    output, the JetStream context of the JetStream output) is set
    exactly when the output holds a connection. *)
Theorem write_handle_follows_connection (ops : list connOp) :
  (is_Some (kv_natsConn (foldl kvStep newKV ops))
   <-> is_Some (kv_keyValue (foldl kvStep newKV ops))) /\
  (is_Some (js_natsConn (foldl jsStep newJS ops))
   <-> is_Some (js_jCtx (foldl jsStep newJS ops))).
Proof.
  split; [apply kvRun_paired|apply jsRun_paired]; apply new_paired.
Qed.

(** X22: after any sequence of Connect and disconnect calls, a Write on
    an output without connection returns ErrNotConnected and puts
    nothing; on a connected output, a message whose bytes and key can be
    had is put under that key, once. *)
Theorem kvWrite_needs_connection (ops : list connOp) (env : write_env) :
  let kv := foldl kvStep newKV ops in
  (kv_natsConn kv = None -> kvWrite env kv = (Some ErrNotConnected, [])) /\
  (forall value key,
      is_Some (kv_natsConn kv) ->
      we_AsBytes env = inr value -> we_key env = inr key ->
      snd (kvWrite env kv) = [(key, value)]).
Proof.
  intros kv.
  destruct (kvRun_paired ops newKV (proj1 new_paired)) as [H1 H2].
  unfold kvWrite. split.
  - intros Hn. destruct (kv_keyValue kv) eqn:Ek; [|reflexivity].
    destruct (H2 (ex_intro _ _ Ek)) as [c Hc]. unfold kv in *. congruence.
  - intros value key Hc Hb Hk. destruct (H1 Hc) as [h Hh].
    unfold kv in *. rewrite Hh, Hb, Hk. destruct (we_Put env); reflexivity.
Qed.

(** X23: when the key-value input has dialed and Connect then fails (no
    JetStream, no bucket, no watcher), the closed connection stays in
    the reader: every later Connect returns nil without dialing, and
    Read keeps returning ErrNotConnected. *)
Theorem kvReader_failed_Connect_sticks (env : reader_env)
    (r r' : kvReader) (e : error) (conn : nat) :
  r_natsConn r = None ->
  r_watcher r = None ->
  kvrConnect env r = (r', Some e) ->
  re_Connect env = inr conn ->
  (forall env2, kvrConnect env2 r' = (r', None)) /\
  (forall (E : Type) (events : list (readEvent E)),
      kvrRead events r' = (ReadError ErrNotConnected, r')) /\
  r_natsConn r' = Some conn /\
  r_closed r' = r_closed r ++ [conn].
Proof.
  unfold kvrConnect at 1. intros Hn Hw Hc Hd. rewrite Hn, Hd in Hc.
  assert (Hr' : r' = mkKVR (r_bucket r) (r_key r) (Some conn) None (r_log r)
                       (r_closed r ++ [conn]) (r_stopped r)).
  { destruct (re_JetStream env); [|destruct (re_KeyValue env);
      [|destruct (re_Watch env); [|discriminate]]];
      injection Hc as <- _; unfold connectFailed; simpl;
      rewrite ?Hw; simpl; rewrite ?app_nil_r; reflexivity. }
  subst r'. repeat split.
Qed.

Lemma kvReader_failed_Connect_sticks_witness :
  (forall env2, kvrConnect env2 (mkKVR "bucket" ">" (Some 7%nat) None [] [7%nat] [])
                = (mkKVR "bucket" ">" (Some 7%nat) None [] [7%nat] [], None)) /\
  (forall (E : Type) (events : list (readEvent E)),
      kvrRead events (mkKVR "bucket" ">" (Some 7%nat) None [] [7%nat] [])
      = (ReadError ErrNotConnected, mkKVR "bucket" ">" (Some 7%nat) None [] [7%nat] [])) /\
  r_natsConn (mkKVR "bucket" ">" (Some 7%nat) None [] [7%nat] []) = Some 7%nat /\
  r_closed (mkKVR "bucket" ">" (Some 7%nat) None [] [7%nat] [])
  = r_closed newKVR ++ [7%nat].
Proof.
  apply (kvReader_failed_Connect_sticks
           (mkReaderEnv (inr 7%nat) (inr 8%nat) (inl ErrTimeout) (inr 9%nat))
           newKVR _ ErrTimeout 7%nat); reflexivity.
Defined.

(** X24: Read on a watching reader skips the nil entries of the updates
    channel and returns the first entry that is not nil, leaving the
    reader as it was. *)
Theorem Read_returns_first_entry {E : Type} (n : nat) (entry : E)
    (rest : list (readEvent E)) (r : kvReader) :
  is_Some (r_watcher r) ->
  kvrRead (replicate n (Update None) ++ Update (Some entry) :: rest) r
  = (Message entry, r).
Proof.
  intros [w Hw]. unfold kvrRead. rewrite Hw.
  induction n as [|n IH]; simpl; [reflexivity|exact IH].
Qed.

Lemma Read_returns_first_entry_witness :
  kvrRead (replicate 2 (Update None) ++ Update (Some "k=v") :: [UpdatesClosed])
    (mkKVR "bucket" ">" (Some 7%nat) (Some 9%nat) [] [] [])
  = (Message "k=v", mkKVR "bucket" ">" (Some 7%nat) (Some 9%nat) [] [] []).
Proof.
  apply (Read_returns_first_entry 2 "k=v" [UpdatesClosed]).
  eexists. reflexivity.
Defined.

(** X25: when the updates channel is closed under a Read, the reader
    disconnects (the watcher is stopped, the connection closed, both
    fields cleared) and Read returns ErrNotConnected; the next Connect
    dials again. *)
Theorem closed_updates_disconnect {E : Type} (n : nat)
    (rest : list (readEvent E)) (r : kvReader) (conn watcher : nat)
    (env : reader_env) :
  r_natsConn r = Some conn ->
  r_watcher r = Some watcher ->
  let after := kvrRead (replicate n (Update None) ++ UpdatesClosed :: rest) r in
  fst after = ReadError ErrNotConnected /\
  r_natsConn (snd after) = None /\ r_watcher (snd after) = None /\
  r_closed (snd after) = r_closed r ++ [conn] /\
  r_stopped (snd after) = r_stopped r ++ [watcher] /\
  r_natsConn (fst (kvrConnect env (snd after)))
  = match re_Connect env with inr c => Some c | inl _ => None end.
Proof.
  intros Hc Hw. unfold kvrRead. rewrite Hw.
  assert (Hl : readLoop (replicate n (Update None) ++ UpdatesClosed :: rest) r
               = (ReadError ErrNotConnected, kvrDisconnect r)).
  { induction n as [|n IH]; simpl; [reflexivity|exact IH]. }
  cbv zeta. rewrite Hl. simpl. rewrite Hc, Hw. simpl.
  repeat split.
  unfold kvrConnect. simpl.
  destruct (re_Connect env); [reflexivity|].
  destruct (re_JetStream env); [reflexivity|].
  destruct (re_KeyValue env); [reflexivity|].
  destruct (re_Watch env); reflexivity.
Qed.

Lemma closed_updates_disconnect_witness :
  let r := mkKVR "bucket" ">" (Some 7%nat) (Some 9%nat) [] [] [] in
  let env := mkReaderEnv (inr 11%nat) (inr 8%nat) (inr 8%nat) (inr 12%nat) in
  let after := kvrRead (replicate 1 (Update None) ++ UpdatesClosed :: [Update (Some "k=v")]) r in
  fst after = ReadError ErrNotConnected /\
  r_natsConn (snd after) = None /\ r_watcher (snd after) = None /\
  r_closed (snd after) = r_closed r ++ [7%nat] /\
  r_stopped (snd after) = r_stopped r ++ [9%nat] /\
  r_natsConn (fst (kvrConnect env (snd after)))
  = match re_Connect env with inr c => Some c | inl _ => None end.
Proof.
  apply (closed_updates_disconnect 1 [Update (Some "k=v")]
           (mkKVR "bucket" ">" (Some 7%nat) (Some 9%nat) [] [] []) 7%nat 9%nat
           (mkReaderEnv (inr 11%nat) (inr 8%nat) (inr 8%nat) (inr 12%nat)));
    reflexivity.
Defined.

End NatsMoreFacts.

(** ** The Cloud Storage target reader *)

Module GCSFacts.

Import GCS.

Lemma names_inr (l : list string) : names (map inr l) = l.
Proof. induction l as [|x l IH]; [reflexivity|]. simpl. rewrite IH. reflexivity. Qed.

(** A page of a listing without errors: the next [count] keys. *)
Lemma listObjects_clean (count : nat) (objs : list string) (del : bool)
    (acc : list gcpCloudStorageObjectTarget) :
  listObjects count (map inr objs) del acc
  = (None, acc ++ map (fun n => mkTarget n del) (take count objs),
     map inr (drop count objs)).
Proof.
  revert objs acc. induction count as [|count IH]; intros objs acc; simpl.
  - rewrite ?take_0, ?drop_0, app_nil_r. reflexivity.
  - destruct objs as [|x objs]; simpl.
    + rewrite app_nil_r. reflexivity.
    + rewrite IH, <- app_assoc. reflexivity.
Qed.

(** A page never adds more targets than its count. *)
Lemma listObjects_length (count : nat) (it : ObjectIterator) (del : bool)
    (acc : list gcpCloudStorageObjectTarget) :
  (length (snd (fst (listObjects count it del acc))) <= length acc + count)%nat.
Proof.
  revert it acc. induction count as [|count IH]; intros it acc; simpl; [lia|].
  destruct it as [|[e|name] it']; simpl; try lia.
  specialize (IH it' (acc ++ [mkTarget name del])).
  rewrite length_app in IH. simpl in IH. lia.
Qed.

(** A page that meets an error keeps the targets listed before it. *)
Lemma listObjects_error (count : nat) (objs : list string) (e : error)
    (rest : ObjectIterator) (del : bool)
    (acc : list gcpCloudStorageObjectTarget) :
  (length objs < count)%nat ->
  listObjects count (map inr objs ++ inl e :: rest) del acc
  = (Some (errFailedToList e), acc ++ map (fun n => mkTarget n del) objs, rest).
Proof.
  revert objs acc. induction count as [|count IH]; intros objs acc Hlen; [lia|].
  destruct objs as [|x objs]; simpl.
  - rewrite app_nil_r. reflexivity.
  - simpl in Hlen. rewrite IH by lia. rewrite <- app_assoc. reflexivity.
Qed.

(** One Pop of a reader whose listing has no errors: the first key yet
    to hand out, or EOF when there is none. *)
Lemma Pop_clean (r : gcpCloudStorageTargetReader) :
  cleanListing r ->
  fst (Pop r) = match contents r with
                | [] => inl ioEOF
                | x :: _ => inr (mkTarget x (DeleteObjects r))
                end /\
  cleanListing (snd (Pop r)) /\
  contents (snd (Pop r)) = tail (contents r) /\
  DeleteObjects (snd (Pop r)) = DeleteObjects r.
Proof.
  destruct r as [pend del sa]. unfold cleanListing, contents, Pop.
  cbn [pending startAfter DeleteObjects]. intros [Hdel Hclean].
  destruct pend as [|p ps].
  - destruct sa as [it|].
    + destruct Hclean as [rest ->].
      rewrite listObjects_clean, names_inr. simpl.
      unfold maxGCPCloudStorageListObjectsResults.
      destruct rest as [|x xs]; simpl.
      * repeat split; [constructor|]. exists []. reflexivity.
      * rewrite names_inr. repeat split.
        -- apply Forall_forall. intros t Ht.
           apply list_elem_of_In, in_map_iff in Ht. destruct Ht as (n & <- & _).
           reflexivity.
        -- eauto.
        -- rewrite map_map. simpl. rewrite map_id, take_drop. reflexivity.
    + simpl. repeat split; constructor.
  - simpl. apply Forall_cons_1 in Hdel. destruct Hdel as [Hp Hps].
    repeat split.
    + destruct p as [kp dp]. simpl in Hp. rewrite Hp. reflexivity.
    + exact Hps.
    + exact Hclean.
Qed.

Lemma drain_clean (fuel : nat) (r : gcpCloudStorageTargetReader) :
  cleanListing r ->
  (length (contents r) <= fuel)%nat ->
  drain fuel r = contents r.
Proof.
  revert r. induction fuel as [|fuel IH]; intros r Hclean Hlen.
  - destruct (contents r); [reflexivity|simpl in Hlen; lia].
  - destruct (Pop_clean r Hclean) as (Hpop & Hclean' & Hcont & _).
    simpl. destruct (Pop r) as [res r']. simpl in *.
    destruct (contents r) as [|x xs] eqn:Ec; subst res; [reflexivity|].
    simpl. rewrite (IH r' Hclean'); [rewrite Hcont; reflexivity|].
    rewrite Hcont. simpl in *. lia.
Qed.

Lemma Pop_bound (r : gcpCloudStorageTargetReader) :
  (length (pending r) <= maxGCPCloudStorageListObjectsResults)%nat ->
  (length (pending (snd (Pop r))) <= maxGCPCloudStorageListObjectsResults)%nat.
Proof.
  unfold Pop, maxGCPCloudStorageListObjectsResults. intros Hlen.
  destruct r as [pend0 del sa]. cbn [pending startAfter DeleteObjects] in *.
  destruct pend0 as [|p ps].
  - destruct sa as [it|].
    + pose proof (listObjects_length 100 it del []) as Hl.
      destruct (listObjects 100 it del []) as [[e pend] it'].
      cbn [fst snd length] in Hl. destruct e; cbn [snd pending]; [exact Hl|].
      destruct pend as [|obj rest]; cbn [snd pending length] in *; lia.
    + cbn [snd pending length]. lia.
  - cbn [snd pending length] in *. lia.
Qed.

Lemma pops_clean (n : nat) (r : gcpCloudStorageTargetReader) :
  cleanListing r ->
  cleanListing (pops n r) /\ contents (pops n r) = drop n (contents r).
Proof.
  revert r. induction n as [|n IH]; intros r Hclean.
  - split; [exact Hclean|]. rewrite drop_0. reflexivity.
  - destruct (Pop_clean r Hclean) as (_ & Hclean' & Hcont & _).
    destruct (IH _ Hclean') as [Hc Hd]. simpl. split; [exact Hc|].
    rewrite Hd, Hcont. destruct (contents r); [apply drop_nil|reflexivity].
Qed.

(** X26: over a listing that answers without errors, the reader hands
    out every object of the listing exactly once and in the order of the
    listing, and the Pop after the last of them reports EOF. *)
Theorem Pop_hands_out_listing (objs : list string) (del : bool) :
  exists r,
    newGCPCloudStorageTargetReader (map inr objs) del = inr r /\
    (forall fuel, (length objs <= fuel)%nat -> drain fuel r = objs) /\
    fst (Pop (pops (length objs) r)) = inl ioEOF.
Proof.
  unfold newGCPCloudStorageTargetReader. rewrite listObjects_clean. simpl.
  eexists. split; [reflexivity|].
  set (r := mkTargetReader _ _ _).
  cut (cleanListing r /\ contents r = objs).
  { intros [Hclean Hcont]. split.
    - intros fuel Hfuel.
      rewrite drain_clean; [exact Hcont|exact Hclean|rewrite Hcont; exact Hfuel].
    - destruct (pops_clean (length objs) r Hclean) as [Hc Hd].
      destruct (Pop_clean _ Hc) as (Hpop & _). rewrite Hpop, Hd, Hcont.
      rewrite drop_ge by lia. reflexivity. }
  split.
  { unfold cleanListing, r. simpl. split.
    - apply Forall_forall. intros t Ht.
      apply list_elem_of_In, in_map_iff in Ht. destruct Ht as (n & <- & _).
      reflexivity.
    - destruct (0 <? _)%nat; [eauto|exact I]. }
  unfold contents, r, maxGCPCloudStorageListObjectsResults. simpl.
  rewrite map_map. simpl. rewrite map_id, length_map.
  destruct (0 <? length (take 100 objs))%nat eqn:E.
  - rewrite names_inr, take_drop. reflexivity.
  - apply Nat.ltb_ge in E. rewrite app_nil_r.
    destruct objs as [|x xs]; [reflexivity|]. simpl in E. lia.
Qed.

(** A listing of two hundred and one objects goes out in three pages. *)
Example drain_three_pages :
  match newGCPCloudStorageTargetReader (map (fun n => inr (pretty n)) (seq 0 201)) true with
  | inr r => drain 300 r = map pretty (seq 0 201) /\
             length (pending r) = 100%nat
  | inl _ => False
  end.
Proof. vm_compute. split; reflexivity. Qed.

(** X27: however often Pop is called and whatever the listing answers,
    errors included, the reader never holds more than a hundred pending
    objects. *)
Theorem pending_never_exceeds_page (it : ObjectIterator) (del : bool)
    (r : gcpCloudStorageTargetReader) (n : nat) :
  newGCPCloudStorageTargetReader it del = inr r ->
  (length (pending (pops n r)) <= maxGCPCloudStorageListObjectsResults)%nat.
Proof.
  intros Hnew.
  assert (H0 : (length (pending r) <= maxGCPCloudStorageListObjectsResults)%nat).
  { unfold newGCPCloudStorageTargetReader in Hnew.
    pose proof (listObjects_length maxGCPCloudStorageListObjectsResults it del [])
      as Hl.
    destruct (listObjects _ it del []) as [[e pend] it'].
    destruct e; [discriminate|]. injection Hnew as <-. exact Hl. }
  clear Hnew. revert r H0. induction n as [|n IH]; intros r H0; [exact H0|].
  simpl. apply IH, Pop_bound, H0.
Qed.

Lemma pending_never_exceeds_page_witness :
  (length (pending (pops 3 (mkTargetReader [mkTarget "a" false; mkTarget "b" false]
                              false (Some []))))
   <= maxGCPCloudStorageListObjectsResults)%nat.
Proof.
  apply (pending_never_exceeds_page [inr "a"; inr "b"] false).
  reflexivity.
Defined.

(** X28: when the listing fails during a refill, Pop returns the error
    wrapped as a failure to list, and the objects listed before the error
    stay pending in the reader, in their order. *)
Theorem Pop_listing_error_keeps_listed (r : gcpCloudStorageTargetReader)
    (objs : list string) (e : error) (rest : ObjectIterator) :
  pending r = [] ->
  startAfter r = Some (map inr objs ++ inl e :: rest) ->
  (length objs < maxGCPCloudStorageListObjectsResults)%nat ->
  Pop r = (inl (errFailedToList e),
           mkTargetReader (map (fun n => mkTarget n (DeleteObjects r)) objs)
             (DeleteObjects r) (Some rest)).
Proof.
  intros Hp Hs Hlen. unfold Pop. rewrite Hp, Hs.
  rewrite listObjects_error by exact Hlen. reflexivity.
Qed.

Lemma Pop_listing_error_keeps_listed_witness :
  Pop (mkTargetReader [] true (Some (map inr ["a"; "b"] ++ inl ErrTimeout :: [inr "c"])))
  = (inl (errFailedToList ErrTimeout),
     mkTargetReader (map (fun n => mkTarget n true) ["a"; "b"]) true (Some [inr "c"])).
Proof.
  apply (Pop_listing_error_keeps_listed
           (mkTargetReader [] true (Some (map inr ["a"; "b"] ++ inl ErrTimeout :: [inr "c"])))
           ["a"; "b"] ErrTimeout [inr "c"]).
  - reflexivity.
  - reflexivity.
  - unfold maxGCPCloudStorageListObjectsResults. simpl. lia.
Defined.

End GCSFacts.

(** ** More on the dynamic input and output *)

Module DynamicMoreFacts.

Import Dynamic.

Section Updates.

Variables config component : Type.
Variable unmarshal : string -> error + config.
Variable construct : string -> config -> error + component.
Variable retryIndefinitely : component -> error + component.

(** An update that returns nil has stored the unmarshalled config under
    its id. *)
Lemma inputOnUpdate_ok (setInput : set_result) (id c : string)
    (configs configs' : gmap string config) :
  inputOnUpdate config component unmarshal construct setInput id c configs
  = (configs', None) ->
  exists newConf, unmarshal c = inr newConf /\
                  configs' = <[id := newConf]> configs.
Proof.
  unfold inputOnUpdate.
  destruct (unmarshal c) as [e1|newConf]; [discriminate|].
  destruct (construct id newConf) as [e1|comp]; [discriminate|].
  destruct setInput as [e1|]; [discriminate|].
  intros [= <-]. eauto.
Qed.

Lemma outputOnUpdate_ok (setOutput : set_result) (id c : string)
    (configs configs' : gmap string config) :
  outputOnUpdate config component unmarshal construct retryIndefinitely
    setOutput id c configs = (configs', None) ->
  exists newConf, unmarshal c = inr newConf /\
                  configs' = <[id := newConf]> configs.
Proof.
  unfold outputOnUpdate.
  destruct (unmarshal c) as [e1|newConf]; [discriminate|].
  destruct (construct id newConf) as [e1|comp]; [discriminate|].
  destruct (retryIndefinitely comp) as [e1|comp']; [discriminate|].
  destruct setOutput as [e1|]; [discriminate|].
  intros [= <-]. eauto.
Qed.

(** The started callback reports an entry once. *)
Lemma onStarted_forgets (l : string) (configs : gmap string config) :
  fst (onStarted config l configs) !! l = None.
Proof.
  unfold onStarted. destruct (configs !! l) eqn:El; simpl.
  - apply lookup_delete_eq.
  - exact El.
Qed.

End Updates.

(** X29: after an update of a dynamic input or output that returned nil,
    the started callback reports for that id the config of the update,
    whatever the map held for the id before, and for any other label the
    config the map held before the update; once it has reported a label
    it reports nothing for it until the next update. *)
Theorem started_reports_latest_update (config component : Type)
    (unmarshal : string -> error + config)
    (construct : string -> config -> error + component)
    (retryIndefinitely : component -> error + component)
    (set : set_result) (id c : string)
    (configs configs' : gmap string config) :
  inputOnUpdate config component unmarshal construct set id c configs
    = (configs', None) \/
  outputOnUpdate config component unmarshal construct retryIndefinitely
    set id c configs = (configs', None) ->
  exists newConf,
    unmarshal c = inr newConf /\
    onStarted config id configs' = (delete id configs, Some newConf) /\
    (forall l, l <> id ->
       snd (onStarted config l configs') = configs !! l) /\
    (forall l,
       snd (onStarted config l (fst (onStarted config l configs'))) = None).
Proof.
  intros Hupd.
  assert (Hok : exists newConf, unmarshal c = inr newConf /\
                                configs' = <[id := newConf]> configs).
  { destruct Hupd as [Hin|Hout].
    - eapply inputOnUpdate_ok; eauto.
    - eapply outputOnUpdate_ok; eauto. }
  destruct Hok as (newConf & Hun & ->). exists newConf.
  split; [exact Hun|]. split; [|split].
  - unfold onStarted. rewrite lookup_insert_eq, delete_insert_eq. reflexivity.
  - intros l Hl. unfold onStarted. rewrite lookup_insert_ne by congruence.
    destruct (configs !! l); reflexivity.
  - intros l. pose proof (onStarted_forgets config l (<[id := newConf]> configs))
      as Hf.
    unfold onStarted at 1. rewrite Hf. reflexivity.
Qed.

Lemma started_reports_latest_update_witness :
  exists newConf : string,
    (inr "kafka" : error + string) = inr newConf /\
    onStarted string "a" (<["a" := "kafka"]> {["a" := "generate"]})
    = (delete "a" {["a" := "generate"]}, Some newConf) /\
    (forall l, l <> "a" ->
       snd (onStarted string l (<["a" := "kafka"]> {["a" := "generate"]}))
       = ({["a" := "generate"]} : gmap string string) !! l) /\
    (forall l,
       snd (onStarted string l
              (fst (onStarted string l
                      (<["a" := "kafka"]> {["a" := "generate"]}))))
       = None).
Proof.
  apply (started_reports_latest_update string string
           (fun c => inr c) (fun _ c => inr c) (fun o => inr o)
           None "a" "kafka" {["a" := "generate"]}
           (<["a" := "kafka"]> {["a" := "generate"]})).
  left. reflexivity.
Defined.

End DynamicMoreFacts.
